(** * driftpy: the bulk account loader

    A shallow embedding of [src/driftpy/accounts/bulk_account_loader.py].
    Python objects become records, the loader's attributes become the fields
    of one state record that every method takes and returns, dictionaries
    whose iteration order is observable become insertion-ordered association
    lists, and the version cache (only read by key and written by key)
    becomes a [gmap]. The effects the outside can see are kept in the state
    too: the callback invocations and the lines printed for rejected batches
    are appended to a trace, and the tasks handed to the event loop are
    counted.

    The connection is an input: each polling cycle is given the function from
    the requests it sends to the parsed answer, or to the failure of the
    request. A method that can raise returns the state it leaves together
    with its outcome. Callbacks are opaque: a call is recorded, and the
    callback is taken to return without calling back into the loader. *)

From Stdlib Require Import Ascii String.
From stdpp Require Import base numbers option list strings pretty gmap relations sorting.

(** ** Python dictionaries

    [dict] keeps insertion order: assigning to a key that is present
    replaces the value where it stands, assigning to a new key appends. *)

Definition dict (K V : Type) : Type := list (K * V).

Section dict_ops.
Context {K V : Type} `{!EqDecision K}.

Fixpoint dict_get (k : K) (d : dict K V) : option V :=
  match d with
  | [] => None
  | (k', v) :: d' => if decide (k = k') then Some v else dict_get k d'
  end.

Fixpoint dict_set (k : K) (v : V) (d : dict K V) : dict K V :=
  match d with
  | [] => [(k, v)]
  | (k', v') :: d' =>
      if decide (k = k') then (k, v) :: d' else (k', v') :: dict_set k v d'
  end.

Definition dict_keys (d : dict K V) : list K := d.*1.
Definition dict_values (d : dict K V) : list V := d.*2.
Definition dict_len (d : dict K V) : nat := length d.
End dict_ops.

(** ** Data model *)

Definition bytes : Type := string.

(** A [Pubkey] is opaque to the loader, which only ever takes [str] of it. *)
Record Pubkey := { base58 : string }.
Definition str (p : Pubkey) : string := base58 p.

(** A callback is a Python function object; the model keeps its identity. *)
Definition Callback : Type := nat.

Record AccountToLoad := {
  pubkey : Pubkey;
  callback : dict Z Callback;
}.

Record BufferAndSlot := {
  slot : Z;
  buffer : option bytes;
}.

Definition GET_MULTIPLE_ACCOUNTS_CHUNK_SIZE : nat := 99.

(** What the loader does to the outside world. [Called a i cb b s] is the
    call [cb(b, s)] made for the account whose [str(pubkey)] is [a], [cb]
    being stored under the id [i]; [Printed] is a line written by [print]. *)
Inductive Event :=
  | Called (account : string) (id : Z) (cb : Callback)
           (buf : option bytes) (version : Z)
  | Printed (line : string).

Record BulkAccountLoader := {
  commitment : string;
  frequency : Z;
  task : option nat;
  callback_id : Z;
  accounts_to_load : dict string AccountToLoad;
  buffer_and_slot_map : gmap string BufferAndSlot;
  (** number of [asyncio.create_task] calls made so far; the n-th task is
      named [n] *)
  tasks_created : nat;
  (** tasks on which [cancel] was called *)
  tasks_cancelled : list nat;
  trace : list Event;
}.

Definition set_task (t : option nat) (st : BulkAccountLoader) :=
  {| commitment := commitment st; frequency := frequency st; task := t;
     callback_id := callback_id st; accounts_to_load := accounts_to_load st;
     buffer_and_slot_map := buffer_and_slot_map st;
     tasks_created := tasks_created st;
     tasks_cancelled := tasks_cancelled st; trace := trace st |}.

Definition set_callback_id (n : Z) (st : BulkAccountLoader) :=
  {| commitment := commitment st; frequency := frequency st; task := task st;
     callback_id := n; accounts_to_load := accounts_to_load st;
     buffer_and_slot_map := buffer_and_slot_map st;
     tasks_created := tasks_created st;
     tasks_cancelled := tasks_cancelled st; trace := trace st |}.

Definition set_accounts_to_load (d : dict string AccountToLoad)
    (st : BulkAccountLoader) :=
  {| commitment := commitment st; frequency := frequency st; task := task st;
     callback_id := callback_id st; accounts_to_load := d;
     buffer_and_slot_map := buffer_and_slot_map st;
     tasks_created := tasks_created st;
     tasks_cancelled := tasks_cancelled st; trace := trace st |}.

Definition set_buffer_and_slot_map (m : gmap string BufferAndSlot)
    (st : BulkAccountLoader) :=
  {| commitment := commitment st; frequency := frequency st; task := task st;
     callback_id := callback_id st; accounts_to_load := accounts_to_load st;
     buffer_and_slot_map := m;
     tasks_created := tasks_created st;
     tasks_cancelled := tasks_cancelled st; trace := trace st |}.

Definition set_tasks_created (n : nat) (st : BulkAccountLoader) :=
  {| commitment := commitment st; frequency := frequency st; task := task st;
     callback_id := callback_id st; accounts_to_load := accounts_to_load st;
     buffer_and_slot_map := buffer_and_slot_map st;
     tasks_created := n;
     tasks_cancelled := tasks_cancelled st; trace := trace st |}.

Definition set_tasks_cancelled (l : list nat) (st : BulkAccountLoader) :=
  {| commitment := commitment st; frequency := frequency st; task := task st;
     callback_id := callback_id st; accounts_to_load := accounts_to_load st;
     buffer_and_slot_map := buffer_and_slot_map st;
     tasks_created := tasks_created st;
     tasks_cancelled := l; trace := trace st |}.

Definition emit (evs : list Event) (st : BulkAccountLoader) :=
  {| commitment := commitment st; frequency := frequency st; task := task st;
     callback_id := callback_id st; accounts_to_load := accounts_to_load st;
     buffer_and_slot_map := buffer_and_slot_map st;
     tasks_created := tasks_created st;
     tasks_cancelled := tasks_cancelled st; trace := trace st ++ evs |}.

(** [BulkAccountLoader.__init__] *)
Definition init (commitment : string) (frequency : Z) : BulkAccountLoader :=
  {| commitment := commitment; frequency := frequency; task := None;
     callback_id := 0; accounts_to_load := [];
     buffer_and_slot_map := ∅;
     tasks_created := 0; tasks_cancelled := []; trace := [] |}.

(** ** Registration *)

(** [_start_loading]: [self.task = asyncio.create_task(self.load())] *)
Definition _start_loading (st : BulkAccountLoader) : BulkAccountLoader :=
  set_task (Some (tasks_created st)) (set_tasks_created (S (tasks_created st)) st).

(** [get_callback_id] *)
Definition get_callback_id (st : BulkAccountLoader) : Z * BulkAccountLoader :=
  let st' := set_callback_id (callback_id st + 1) st in
  (callback_id st', st').

(** [existing_account_to_load.callback[callback_id] = callback] *)
Definition set_callback (id : Z) (cb : Callback) (a : AccountToLoad) :
    AccountToLoad :=
  {| pubkey := pubkey a; callback := dict_set id cb (callback a) |}.

(** [add_account]. The entry found by [get] is the object stored in the
    dictionary, so assigning into its [callback] changes the stored entry,
    which keeps its place. *)
Definition add_account (pubkey : Pubkey) (cb : Callback)
    (st : BulkAccountLoader) : Z * BulkAccountLoader :=
  let existing_size := dict_len (accounts_to_load st) in
  let callback_id := callback_id st in
  let pubkey_str := str pubkey in
  let existing_account_to_load := dict_get pubkey_str (accounts_to_load st) in
  let st1 :=
    match existing_account_to_load with
    | Some existing =>
        set_accounts_to_load
          (dict_set pubkey_str (set_callback callback_id cb existing)
             (accounts_to_load st)) st
    | None =>
        let callbacks := dict_set callback_id cb [] in
        set_accounts_to_load
          (dict_set pubkey_str {| pubkey := pubkey; callback := callbacks |}
             (accounts_to_load st)) st
    end in
  let st2 := if decide (existing_size = 0%nat) then _start_loading st1 else st1 in
  (callback_id, st2).

(** [unsubscribe] *)
Definition unsubscribe (st : BulkAccountLoader) : BulkAccountLoader :=
  match task st with
  | Some t => set_task None (set_tasks_cancelled (tasks_cancelled st ++ [t]) st)
  | None => st
  end.

(** ** Partitioning *)

(** The values of [range(i, stop, step)] for a positive [step]: the iterator
    yields [i] and moves on by [step] as long as [i < stop]. At most [stop]
    values are produced, which bounds the recursion. *)
Fixpoint range_from (fuel i stop step : nat) : list nat :=
  match fuel with
  | O => []
  | S fuel' =>
      if decide (i < stop) then i :: range_from fuel' (i + step) stop step
      else []
  end.

(** [range(0, stop, step)]; a zero step raises [ValueError]. *)
Definition range (stop step : nat) : option (list nat) :=
  if decide (step = 0) then None else Some (range_from stop 0 stop step).

(** [array[i : j]] for [i <= j] *)
Definition slice {A} (array : list A) (i j : nat) : list A :=
  take (j - i) (drop i array).

(** [chunks]: [[array[i : i + size] for i in range(0, len(array), size)]] *)
Definition chunks {A} (array : list A) (size : nat) : option (list (list A)) :=
  match range (length array) size with
  | None => None
  | Some starts => Some ((fun i => slice array i (i + size)) <$> starts)
  end.

(** ** The remote read *)

Inductive Exception :=
  | ValueError        (* [range] with a zero step *)
  | TransportError    (* the POST, [resp.json()] or [jsonrpcclient.parse] *)
  | binascii_Error.   (* [b64decode] on a string that is not base64 *)

(** How a method call ends. The state it leaves is returned next to it in
    both cases: what was written before an exception stays written. *)
Inductive Outcome :=
  | Returned
  | Raised (e : Exception).

Module jsonrpcclient.
(** [request("getMultipleAccounts", params=[pubkeys, {"encoding": e,
    "commitment": c}])] *)
Record Request := request {
  method : string;
  params_pubkeys : list string;
  params_encoding : string;
  params_commitment : string;
}.

(** One entry of [result["value"]]: [account["data"][0]] is the payload in
    base64. The remote sends [null] for an account that does not exist. *)
Record Account := { data_0 : string }.

Record Result := {
  context_slot : Z;
  value : list (option Account);
}.

Inductive Response :=
  | Ok (result : Result)
  | Error (message : string).
End jsonrpcclient.

(** The connection as one polling cycle sees it: the parsed answer to a
    batch of requests, or [None] when awaiting it raises. *)
Definition Post : Type :=
  list jsonrpcclient.Request -> option (list jsonrpcclient.Response).

(** ** Dispatch *)

(** The objects [is not None] is asked about. *)
Inductive PyObject :=
  | NoneObject
  | BytesObject (b : bytes)
  | TypeObject (name : string).

Definition is_not_None (o : PyObject) : bool :=
  match o with
  | NoneObject => false
  | _ => true
  end.

(** [handle_callbacks] has the parameters [self], [account_to_load], [buffer]
    and [slot] and the loop variable [cb]; the module binds no [bytes]. The
    name [bytes] in its body is therefore the builtin type. *)
Definition builtins_bytes : PyObject := TypeObject "bytes".

(** [handle_callbacks]. The loop runs over [callback.values()]; the key is
    taken along only to label the recorded call. *)
Definition handle_callbacks (account_to_load : AccountToLoad)
    (buffer : option bytes) (slot : Z) (st : BulkAccountLoader) :
    BulkAccountLoader :=
  foldl
    (fun st '(id, cb) =>
       if is_not_None builtins_bytes
       then emit [Called (str (pubkey account_to_load)) id cb buffer slot] st
       else st)
    st (callback account_to_load).

(** ** Reconciliation *)

(** [old_buffer_and_slot is not None and slot <= old_buffer_and_slot.slot] *)
Definition is_stale (s : Z) (old_buffer_and_slot : option BufferAndSlot) : bool :=
  match old_buffer_and_slot with
  | Some old => bool_decide (s ≤ slot old)%Z
  | None => false
  end.

(** [old_buffer_and_slot is None or new_buffer != old_buffer_and_slot.buffer] *)
Definition is_changed (new_buffer : option bytes)
    (old_buffer_and_slot : option BufferAndSlot) : bool :=
  match old_buffer_and_slot with
  | None => true
  | Some old => bool_decide (new_buffer ≠ buffer old)
  end.

(** [value.pop(0) if value else None], with what is left of [value] *)
Definition pop_0 {A} (value : list (option A)) : option A * list (option A) :=
  match value with
  | [] => (None, [])
  | account :: rest => (account, rest)
  end.

Section loading.
(** [base64.b64decode] is a library function: the loader is verified for
    any decoder, [None] standing for [binascii.Error]. *)
Variable b64decode : string -> option bytes.

(** [new_buffer = None; if account: new_buffer = b64decode(...)]. The
    outer [None] is the exception of the decoder. *)
Definition new_buffer_of (account : option jsonrpcclient.Account) :
    option (option bytes) :=
  match account with
  | Some acc => Some <$> b64decode (jsonrpcclient.data_0 acc)
  | None => Some None
  end.

(** The body of [for account_to_load in chunk_accounts]. [value] is the
    list [rpc_result.result["value"]], which the body shortens. *)
Definition load_account (s : Z) (account_to_load : AccountToLoad)
    (value : list (option jsonrpcclient.Account)) (st : BulkAccountLoader) :
    BulkAccountLoader * list (option jsonrpcclient.Account) * Outcome :=
  let pubkey_str := str (pubkey account_to_load) in
  let old_buffer_and_slot := buffer_and_slot_map st !! pubkey_str in
  if is_stale s old_buffer_and_slot then (st, value, Returned)
  else
    let '(account, value') := pop_0 value in
    match new_buffer_of account with
    | None => (st, value', Raised binascii_Error)
    | Some new_buffer =>
        if is_changed new_buffer old_buffer_and_slot then
          let st1 := handle_callbacks account_to_load new_buffer s st in
          (set_buffer_and_slot_map
             (<[pubkey_str := {| slot := s; buffer := new_buffer |}]>
                (buffer_and_slot_map st1)) st1,
           value', Returned)
        else (st, value', Returned)
    end.

(** [for account_to_load in chunk_accounts: ...] *)
Fixpoint load_accounts (s : Z) (chunk_accounts : list AccountToLoad)
    (value : list (option jsonrpcclient.Account)) (st : BulkAccountLoader) :
    BulkAccountLoader * Outcome :=
  match chunk_accounts with
  | [] => (st, Returned)
  | account_to_load :: rest =>
      match load_account s account_to_load value st with
      | (st', value', Returned) => load_accounts s rest value' st'
      | (st', _, Raised e) => (st', Raised e)
      end
  end.

(** [for rpc_result, chunk_accounts in zip(parsed_resp, chunk): ...] *)
Fixpoint load_results
    (pairs : list (jsonrpcclient.Response * list AccountToLoad))
    (st : BulkAccountLoader) : BulkAccountLoader * Outcome :=
  match pairs with
  | [] => (st, Returned)
  | (jsonrpcclient.Error message, _) :: rest =>
      load_results rest
        (emit [Printed ("Failed to get info about accounts: " +:+ message)] st)
  | (jsonrpcclient.Ok result, chunk_accounts) :: rest =>
      match load_accounts (jsonrpcclient.context_slot result) chunk_accounts
              (jsonrpcclient.value result) st with
      | (st', Returned) => load_results rest st'
      | (st', Raised e) => (st', Raised e)
      end
  end.

(** The requests [load_chunk] builds, one per sub-batch. *)
Definition rpc_requests (chunk : list (list AccountToLoad))
    (st : BulkAccountLoader) : list jsonrpcclient.Request :=
  (fun accounts_to_load =>
     jsonrpcclient.request "getMultipleAccounts"
       ((fun account_to_load => str (pubkey account_to_load))
          <$> accounts_to_load)
       "base64" (commitment st)) <$> chunk.

(** [load_chunk] *)
Definition load_chunk (post : Post) (chunk : list (list AccountToLoad))
    (st : BulkAccountLoader) : BulkAccountLoader * Outcome :=
  if decide (length chunk = 0) then (st, Returned)
  else
    match post (rpc_requests chunk st) with
    | None => (st, Raised TransportError)
    | Some parsed_resp => load_results (zip parsed_resp chunk) st
    end.

(** [asyncio.gather] over the coroutines: every coroutine becomes a task of its own and
    runs to its end whatever the others do; the first exception, if any,
    is raised in the awaiting task. The tasks are resumed here in the order
    of the list. *)
Fixpoint gather
    (coros : list (BulkAccountLoader -> BulkAccountLoader * Outcome))
    (st : BulkAccountLoader) : BulkAccountLoader * Outcome :=
  match coros with
  | [] => (st, Returned)
  | coro :: rest =>
      let '(st1, o1) := coro st in
      let '(st2, o2) := gather rest st1 in
      (st2, match o1 with Raised e => Raised e | Returned => o2 end)
  end.

(** What [load] partitions: [chunks(chunks(snapshot, 99), 10)]. *)
Definition partition (snapshot : list AccountToLoad) :
    option (list (list (list AccountToLoad))) :=
  match chunks snapshot GET_MULTIPLE_ACCOUNTS_CHUNK_SIZE with
  | None => None
  | Some sub_batches => chunks sub_batches 10
  end.

(** One turn of the [while True] of [load], up to the sleep. *)
Definition load_cycle (post : Post) (st : BulkAccountLoader) :
    BulkAccountLoader * Outcome :=
  match partition (dict_values (accounts_to_load st)) with
  | None => (st, Raised ValueError)
  | Some chunks => gather (load_chunk post <$> chunks) st
  end.

(** Where the background task stands. *)
Inductive TaskState :=
  | Looping
  | Finished (e : Exception).

(** [load]: [posts] is how the connection answers in the cycles to come;
    the loop has no exit of its own, so when they are used up the task is
    still looping. An exception that reaches [load] ends the task. *)
Fixpoint load (posts : list Post) (st : BulkAccountLoader) :
    BulkAccountLoader * TaskState :=
  match posts with
  | [] => (st, Looping)
  | post :: rest =>
      match load_cycle post st with
      | (st', Returned) => load rest st'
      | (st', Raised e) => (st', Finished e)
      end
  end.
End loading.

(** ** A decoder to run scenarios with

    Standard base64 on padded input, an instance of the decoder the loader is
    parametrised by. *)

Definition b64_value (c : Ascii.ascii) : option N :=
  let n := Ascii.N_of_ascii c in
  if decide (65 ≤ n ≤ 90)%N then Some (n - 65)%N
  else if decide (97 ≤ n ≤ 122)%N then Some (n - 71)%N
  else if decide (48 ≤ n ≤ 57)%N then Some (n + 4)%N
  else if decide (n = 43)%N then Some 62%N
  else if decide (n = 47)%N then Some 63%N
  else None.

Fixpoint b64decode_padded (s : string) : option bytes :=
  match s with
  | EmptyString => Some EmptyString
  | String c1 (String c2 (String c3 (String c4 rest))) =>
      v1 ← b64_value c1;
      v2 ← b64_value c2;
      let byte1 := Ascii.ascii_of_N (v1 * 4 + v2 / 16) in
      if decide (c3 = "="%char ∧ c4 = "="%char ∧ rest = EmptyString)
      then Some (String byte1 EmptyString)
      else
        v3 ← b64_value c3;
        let byte2 := Ascii.ascii_of_N ((v2 mod 16) * 16 + v3 / 4) in
        if decide (c4 = "="%char ∧ rest = EmptyString)
        then Some (String byte1 (String byte2 EmptyString))
        else
          v4 ← b64_value c4;
          let byte3 := Ascii.ascii_of_N ((v3 mod 4) * 64 + v4) in
          tail ← b64decode_padded rest;
          Some (String byte1 (String byte2 (String byte3 tail)))
  | _ => None
  end.

(** ** Vocabulary of the statements *)

(** The least number of parts of size [b] that cover [a] items. *)
Definition ceil_div (a b : nat) : nat := (a + (b - 1)) / b.

(** [chunks] read recursively: cut [size] items off the front until nothing
    is left. [fuel] bounds the number of cuts. *)
Fixpoint chop {A} (fuel size : nat) (l : list A) : list (list A) :=
  match fuel with
  | O => []
  | S fuel' =>
      match l with
      | [] => []
      | _ => take size l :: chop fuel' size (drop size l)
      end
  end.

(** The address a watched account is cached and requested under. *)
Definition address (a : AccountToLoad) : string := str (pubkey a).

(** The calls one dispatch for [a] is expected to make: one per registered
    callback, in the order of registration, all with the same arguments. *)
Definition calls (a : AccountToLoad) (buffer : option bytes) (s : Z) :
    list Event :=
  (fun '(id, cb) => Called (address a) id cb buffer s) <$> callback a.

(** The versions handed, in order, to the callbacks of one address. *)
Definition versions_to (addr : string) (tr : list Event) : list Z :=
  omap (fun e =>
          match e with
          | Called a _ _ _ v => if decide (a = addr) then Some v else None
          | Printed _ => None
          end) tr.

(** The versions handed, in order, to the callback stored under [id] at one
    address. *)
Definition versions_seen (addr : string) (id : Z) (tr : list Event) : list Z :=
  omap (fun e =>
          match e with
          | Called a i _ _ v =>
              if decide (a = addr ∧ i = id) then Some v else None
          | Printed _ => None
          end) tr.

(** How often the function object [cb] was called. *)
Definition times_called (cb : Callback) (tr : list Event) : nat :=
  length (List.filter (fun e => match e with
                                | Called _ _ cb' _ _ => bool_decide (cb' = cb)
                                | Printed _ => false
                                end) tr).

(** The trace without the printed lines. *)
Definition callbacks_run (tr : list Event) : list Event :=
  List.filter (fun e => match e with
                        | Called _ _ _ _ _ => true
                        | Printed _ => false
                        end) tr.

(** ** The life of a loader

    What can happen to a loader between its construction and any later
    moment: the public methods are called, and the background task gets the
    answer to a group of sub-batches and reconciles it. The accounts in such
    a group were read from the registry when the cycle began; they are the
    objects the registry still holds, since entries are never replaced, so by
    the time of the reconciliation they read as the registry does then. *)

Definition registered (st : BulkAccountLoader)
    (chunk : list (list AccountToLoad)) : Prop :=
  ∀ batch a, batch ∈ chunk → a ∈ batch →
    dict_get (address a) (accounts_to_load st) = Some a.

Inductive step (b64decode : string -> option bytes) :
    BulkAccountLoader -> BulkAccountLoader -> Prop :=
  | step_add_account pk cb st :
      step b64decode st (add_account pk cb st).2
  | step_get_callback_id st :
      step b64decode st (get_callback_id st).2
  | step_unsubscribe st :
      step b64decode st (unsubscribe st)
  | step_load_chunk post chunk st :
      registered st chunk ->
      step b64decode st (load_chunk b64decode post chunk st).1.

Definition reachable (b64decode : string -> option bytes)
    (st : BulkAccountLoader) : Prop :=
  ∃ c f, rtc (step b64decode) (init c f) st.

(** The registry as [add_account] keeps it. *)
Definition registry_wf (reg : dict string AccountToLoad) : Prop :=
  NoDup (dict_keys reg) ∧
  ∀ k a, (k, a) ∈ reg →
    k = address a ∧ NoDup (dict_keys (callback a)) ∧ callback a ≠ [].

(** No version was delivered for an address beyond the one cached for it. *)
Definition delivered_cached (st : BulkAccountLoader) : Prop :=
  ∀ a i cb b v, Called a i cb b v ∈ trace st →
    ∃ old, buffer_and_slot_map st !! a = Some old ∧ (v ≤ slot old)%Z.

Definition loader_inv (st : BulkAccountLoader) : Prop :=
  registry_wf (accounts_to_load st) ∧
  delivered_cached st ∧
  (∀ a, StronglySorted Z.le (versions_to a (trace st))) ∧
  (∀ a i, StronglySorted Z.lt (versions_seen a i (trace st))) ∧
  tasks_created st = (if decide (accounts_to_load st = []) then 0 else 1).

(** The cache [m2] holds every address of [m1], none at an older slot. *)
Definition cache_le (m1 m2 : gmap string BufferAndSlot) : Prop :=
  ∀ addr old, m1 !! addr = Some old →
    ∃ new, m2 !! addr = Some new ∧ (slot old ≤ slot new)%Z.

(** What a piece of the background task may do to the loader: it leaves the
    registry and the tasks alone, never takes the cache back, and keeps the
    invariant. *)
Definition advances (st st' : BulkAccountLoader) : Prop :=
  accounts_to_load st' = accounts_to_load st ∧
  tasks_created st' = tasks_created st ∧
  cache_le (buffer_and_slot_map st) (buffer_and_slot_map st') ∧
  (loader_inv st → loader_inv st').

Definition set_trace (tr : list Event) (st : BulkAccountLoader) :=
  {| commitment := commitment st; frequency := frequency st; task := task st;
     callback_id := callback_id st; accounts_to_load := accounts_to_load st;
     buffer_and_slot_map := buffer_and_slot_map st;
     tasks_created := tasks_created st;
     tasks_cancelled := tasks_cancelled st; trace := tr |}.

(** Two loaders that differ at most in the lines printed so far. *)
Definition same_calls (st1 st2 : BulkAccountLoader) : Prop :=
  ∃ tr, st2 = set_trace tr st1 ∧
        callbacks_run tr = callbacks_run (trace st1).


(** ** Scenarios *)

Definition key_A : Pubkey := {| base58 := "A" |}.
Definition key_B : Pubkey := {| base58 := "B" |}.

Definition fresh : BulkAccountLoader := init "confirmed" 1.

(** A connection that answers every request with one result carrying the
    slot [s] and the given payloads, in base64. *)
Definition answer (s : Z) (payloads : list (option string)) : Post :=
  fun _ =>
    Some [jsonrpcclient.Ok
            {| jsonrpcclient.context_slot := s;
               jsonrpcclient.value :=
                 (fun p : option string =>
                    (fun d => {| jsonrpcclient.data_0 := d |}) <$> p)
                   <$> payloads |}].


(** A connection whose request fails. *)
Definition down : Post := fun _ => None.

(** One address, watched by the callbacks 1 and then 2. *)
Definition watched_twice : BulkAccountLoader :=
  (add_account key_A 2 (add_account key_A 1 fresh).2).2.

(** The addresses A and B, watched by the callbacks 1 and 2. *)
Definition watching_A_B : BulkAccountLoader :=
  (add_account key_B 2 (add_account key_A 1 fresh).2).2.

(** The address A, watched by the callback 1. *)
Definition watching_A : BulkAccountLoader := (add_account key_A 1 fresh).2.

(** 150 watched accounts, named 0 to 149, each with one callback. *)
Definition snapshot_150 : list AccountToLoad :=
  (fun n => {| pubkey := {| base58 := pretty n |}; callback := [(0%Z, n)] |})
    <$> seq 0 150.

(** A seen once, at slot 5 with the content [abc]. *)
Definition seen_A_at_5 : BulkAccountLoader :=
  (load b64decode_padded [answer 5 [Some "YWJj"]] watching_A).1.

(** ** Further vocabulary *)

(** The three stages of a loader. The first task is named 0. *)
Definition idle (st : BulkAccountLoader) : Prop :=
  task st = None ∧ tasks_created st = 0 ∧ tasks_cancelled st = [] ∧
  accounts_to_load st = [].

Definition running (st : BulkAccountLoader) : Prop :=
  task st = Some 0 ∧ tasks_created st = 1 ∧ tasks_cancelled st = [] ∧
  accounts_to_load st ≠ [].

Definition stopped (st : BulkAccountLoader) : Prop :=
  task st = None ∧ tasks_created st = 1 ∧ tasks_cancelled st = [0] ∧
  accounts_to_load st ≠ [].

(** No callback is stored under an id beyond the counter. *)
Definition ids_bounded (st : BulkAccountLoader) : Prop :=
  ∀ k a id cb, (k, a) ∈ accounts_to_load st → (id, cb) ∈ callback a →
    (0 ≤ id ≤ callback_id st)%Z.

(** What the cache holds for an address was handed to a callback of it. *)
Definition cache_delivered (st : BulkAccountLoader) : Prop :=
  ∀ addr e, buffer_and_slot_map st !! addr = Some e →
    ∃ i cb, Called addr i cb (buffer e) (slot e) ∈ trace st.

(** What a run of the background task leaves of the loader it started from:
    everything but the cache and the trace, which only grow. *)
Definition only_reconciled (st st' : BulkAccountLoader) : Prop :=
  commitment st' = commitment st ∧ frequency st' = frequency st ∧
  task st' = task st ∧ callback_id st' = callback_id st ∧
  accounts_to_load st' = accounts_to_load st ∧
  tasks_created st' = tasks_created st ∧
  tasks_cancelled st' = tasks_cancelled st ∧
  trace st `prefix_of` trace st' ∧
  cache_le (buffer_and_slot_map st) (buffer_and_slot_map st').

(** The entry of the response an account in place [i] of its sub-batch is
    meant to read: the i-th one, or none when the response is too short. *)
Definition entry_for (value : list (option jsonrpcclient.Account)) (i : nat) :
    option jsonrpcclient.Account :=
  match value !! i with
  | Some account => account
  | None => None
  end.

(** ** The websocket subscription of the user map

    [src/driftpy/user_map/websocket_sub.py]. The subscriber, the user map
    and the filters are objects of other modules: the calls made on them are
    recorded, in order, and taken to return. *)

Module websocket_sub.
(** What [get_user_filter()] and [get_non_idle_user_filter()] return. *)
Inductive MemcmpFilter :=
  | user_filter
  | non_idle_user_filter.

Record WebsocketProgramAccountOptions := {
  filters : list MemcmpFilter;
  options_commitment : string;
  encoding : string;
}.

(** A [WebSocketProgramAccountSubscriber], with the arguments it was made
    from; [ident] tells the objects apart, the n-th one made being [n]. *)
Record WebSocketProgramAccountSubscriber := {
  ident : nat;
  program : nat;
  options : WebsocketProgramAccountOptions;
  subscriber_on_update : Callback;
}.

Inductive Effect :=
  | Constructed (s : WebSocketProgramAccountSubscriber)
  | SubscriberSubscribe (s : nat)
  | SubscriberUnsubscribe (s : nat)
  | UserMapSync.

Record WebsocketSubscription := {
  (** [self.user_map.drift_client.program] *)
  user_map_program : nat;
  commitment : string;
  on_update : Callback;
  skip_initial_load : bool;
  resub_timeout_ms : option Z;
  include_idle : bool;
  subscriber : option WebSocketProgramAccountSubscriber;
  effects : list Effect;
}.

Definition set_subscriber (s : option WebSocketProgramAccountSubscriber)
    (ws : WebsocketSubscription) : WebsocketSubscription :=
  {| user_map_program := user_map_program ws; commitment := commitment ws;
     on_update := on_update ws; skip_initial_load := skip_initial_load ws;
     resub_timeout_ms := resub_timeout_ms ws; include_idle := include_idle ws;
     subscriber := s; effects := effects ws |}.

Definition perform (evs : list Effect) (ws : WebsocketSubscription) :
    WebsocketSubscription :=
  {| user_map_program := user_map_program ws; commitment := commitment ws;
     on_update := on_update ws; skip_initial_load := skip_initial_load ws;
     resub_timeout_ms := resub_timeout_ms ws; include_idle := include_idle ws;
     subscriber := subscriber ws; effects := effects ws ++ evs |}.

(** [WebsocketSubscription.__init__] *)
Definition init (user_map_program : nat) (commitment : string)
    (on_update : Callback) (skip_initial_load : bool)
    (resub_timeout_ms : option Z) (include_idle : bool) :
    WebsocketSubscription :=
  {| user_map_program := user_map_program; commitment := commitment;
     on_update := on_update; skip_initial_load := skip_initial_load;
     resub_timeout_ms := resub_timeout_ms; include_idle := include_idle;
     subscriber := None; effects := [] |}.

(** The number of subscribers made so far, which names the next one. *)
Definition constructed (evs : list Effect) : nat :=
  length (List.filter (fun e => match e with Constructed _ => true | _ => false end)
            evs).

(** [subscribe] *)
Definition subscribe (ws : WebsocketSubscription) : WebsocketSubscription :=
  let ws1 :=
    match subscriber ws with
    | None =>
        let filters := [user_filter] in
        let filters :=
          if negb (include_idle ws) then filters ++ [non_idle_user_filter]
          else filters in
        let options :=
          {| filters := filters; options_commitment := commitment ws;
             encoding := "base64" |} in
        let s :=
          {| ident := constructed (effects ws);
             program := user_map_program ws; options := options;
             subscriber_on_update := on_update ws |} in
        set_subscriber (Some s) (perform [Constructed s] ws)
    | Some _ => ws
    end in
  let ws2 :=
    match subscriber ws1 with
    | Some s => perform [SubscriberSubscribe (ident s)] ws1
    | None => ws1
    end in
  if negb (skip_initial_load ws2) then perform [UserMapSync] ws2 else ws2.

(** [unsubscribe] *)
Definition unsubscribe (ws : WebsocketSubscription) : WebsocketSubscription :=
  match subscriber ws with
  | None => ws
  | Some s => set_subscriber None (perform [SubscriberUnsubscribe (ident s)] ws)
  end.

(** The calls a user makes, and a subscription after a series of them. *)
Inductive Call :=
  | call_subscribe
  | call_unsubscribe.

Definition run_call (ws : WebsocketSubscription) (c : Call) :
    WebsocketSubscription :=
  match c with
  | call_subscribe => subscribe ws
  | call_unsubscribe => unsubscribe ws
  end.

Definition run (calls : list Call) (ws : WebsocketSubscription) :
    WebsocketSubscription :=
  foldl run_call ws calls.

(** The filters a subscriber of this subscription is made with. *)
Definition expected_filters (ws : WebsocketSubscription) : list MemcmpFilter :=
  if include_idle ws then [user_filter] else [user_filter; non_idle_user_filter].

Definition count_effect (p : Effect → bool) (evs : list Effect) : nat :=
  length (List.filter p evs).

Definition is_sync (e : Effect) : bool :=
  match e with UserMapSync => true | _ => false end.

Definition is_subscribe (e : Effect) : bool :=
  match e with SubscriberSubscribe _ => true | _ => false end.

Definition is_unsubscribe (e : Effect) : bool :=
  match e with SubscriberUnsubscribe _ => true | _ => false end.

Definition count_call (c : Call) (calls : list Call) : nat :=
  length (List.filter (fun c' => match c, c' with
                                 | call_subscribe, call_subscribe => true
                                 | call_unsubscribe, call_unsubscribe => true
                                 | _, _ => false
                                 end) calls).
(** The subscribers made, and those [unsubscribe()] was called on, in the
    order of the calls. *)
Definition made (evs : list Effect) : list nat :=
  omap (fun e => match e with Constructed s => Some (ident s) | _ => None end) evs.

Definition unsubscribed (evs : list Effect) : list nat :=
  omap (fun e => match e with SubscriberUnsubscribe n => Some n | _ => None end)
    evs.

Definition subscribed (evs : list Effect) : list nat :=
  omap (fun e => match e with SubscriberSubscribe n => Some n | _ => None end)
    evs.
End websocket_sub.

(** ** The inner loop and its response

    [load_accounts] again, giving also what the loop has left of
    [rpc_result.result["value"]] when it ends. *)
Fixpoint load_accounts_rest (b64decode : string -> option bytes) (s : Z)
    (chunk_accounts : list AccountToLoad)
    (value : list (option jsonrpcclient.Account)) (st : BulkAccountLoader) :
    BulkAccountLoader * list (option jsonrpcclient.Account) * Outcome :=
  match chunk_accounts with
  | [] => (st, value, Returned)
  | account_to_load :: rest =>
      match load_account b64decode s account_to_load value st with
      | (st', value', Returned) => load_accounts_rest b64decode s rest value' st'
      | (st', value', Raised e) => (st', value', Raised e)
      end
  end.

(** ** Further scenarios *)



(** B seen at slot 5 after A, in one sub-batch whose second payload is not
    base64; [after_A] is the loader once A has been reconciled. *)
Definition after_A : BulkAccountLoader :=
  (load_accounts b64decode_padded 5
     [{| pubkey := key_A; callback := [(0%Z, 1)] |}]
     [Some {| jsonrpcclient.data_0 := "YQ==" |};
      Some {| jsonrpcclient.data_0 := "a" |}] watching_A_B).1.


(** * Properties *)

(** ** Partitioning *)

Section chunks_facts.
Context {A : Type}.
Implicit Types (l : list A) (L : list (list A)).

Lemma chunks_chop_from size l :
  0 < size →
  ∀ fuel i, length l - i ≤ fuel →
    (fun i => slice l i (i + size)) <$> range_from fuel i (length l) size
    = chop fuel size (drop i l).
Proof.
  intros Hsize fuel. induction fuel as [|fuel IH]; intros i Hfuel; [done|].
  cbn [range_from chop]. destruct (decide (i < length l)) as [Hlt|Hge].
  - destruct (drop i l) as [|x t] eqn:Hdrop.
    { apply (f_equal length) in Hdrop. rewrite length_drop in Hdrop.
      simpl in Hdrop. lia. }
    rewrite <- Hdrop, fmap_cons. f_equal.
    + unfold slice. f_equal. lia.
    + rewrite IH by lia. by rewrite drop_drop.
  - rewrite drop_ge by lia. done.
Qed.

Lemma chunks_chop l size :
  0 < size → chunks l size = Some (chop (length l) size l).
Proof.
  intros Hsize. unfold chunks, range.
  destruct (decide (size = 0)) as [->|_]; [lia|].
  f_equal. rewrite chunks_chop_from by lia. done.
Qed.

Lemma concat_chop size fuel :
  0 < size → ∀ l, length l ≤ fuel → concat (chop fuel size l) = l.
Proof.
  intros Hsize. induction fuel as [|fuel IH]; intros l Hl.
  - destruct l; [done | simpl in Hl; lia].
  - destruct l as [|x l]; [done|].
    change (take size (x :: l) ++ concat (chop fuel size (drop size (x :: l)))
            = x :: l).
    rewrite IH; [apply take_drop|].
    rewrite length_drop. simpl in *. lia.
Qed.

Lemma Forall_chop size fuel l :
  0 < size → Forall (fun c => 0 < length c ≤ size) (chop fuel size l).
Proof.
  intros Hsize. revert l. induction fuel as [|fuel IH]; intros l; [constructor|].
  destruct l as [|x l]; [constructor|].
  cbn [chop]. constructor; [|apply IH].
  rewrite length_take. simpl. lia.
Qed.

Lemma length_chop size fuel :
  0 < size →
  ∀ l, length l ≤ fuel → length (chop fuel size l) = ceil_div (length l) size.
Proof.
  intros Hsize. unfold ceil_div.
  induction fuel as [|fuel IH]; intros l Hl.
  - destruct l; [|simpl in Hl; lia]. simpl.
    symmetry. apply Nat.div_small. lia.
  - destruct l as [|x l].
    { simpl. symmetry. apply Nat.div_small. lia. }
    cbn [chop length]. rewrite IH by (rewrite length_drop; simpl in *; lia).
    rewrite length_drop. cbn [length].
    destruct (decide (size ≤ S (length l))) as [Hle|Hgt].
    + replace (S (length l) + (size - 1))
        with ((S (length l) - size + (size - 1)) + 1 * size) by lia.
      rewrite Nat.div_add by lia. lia.
    + replace (S (length l) - size + (size - 1)) with (size - 1) by lia.
      replace (S (length l) + (size - 1)) with (length l + 1 * size) by lia.
      rewrite Nat.div_add by lia.
      rewrite !Nat.div_small by lia. done.
Qed.

(** Parts of a list without repetition share no element. *)
Lemma NoDup_concat_disjoint L :
  NoDup (concat L) →
  ∀ i j b1 b2 x,
    L !! i = Some b1 → L !! j = Some b2 → x ∈ b1 → x ∈ b2 → i = j.
Proof.
  induction L as [|b L IH]; intros Hnd i j b1 b2 x Hi Hj H1 H2; [done|].
  simpl in Hnd. apply NoDup_app in Hnd as (_ & Hdisj & Hnd).
  assert (Hin : ∀ k c, L !! k = Some c → x ∈ c → x ∈ concat L).
  { intros k c Hk Hx. apply list_elem_of_In, in_concat. exists c.
    split; apply list_elem_of_In; [by eapply list_elem_of_lookup_2 | done]. }
  destruct i as [|i], j as [|j]; simpl in *.
  - done.
  - injection Hi as <-. exfalso. eapply Hdisj; eauto.
  - injection Hj as <-. exfalso. eapply Hdisj; eauto.
  - f_equal. eauto.
Qed.
End chunks_facts.

Lemma ceil_div_least a b :
  0 < b → a ≤ ceil_div a b * b ∧ ∀ k, a ≤ k * b → ceil_div a b ≤ k.
Proof.
  intros Hb. unfold ceil_div. split.
  - pose proof (Nat.div_mod_eq (a + (b - 1)) b) as Hdm.
    pose proof (Nat.mod_upper_bound (a + (b - 1)) b ltac:(lia)) as Hm. nia.
  - intros k Hk. enough ((a + (b - 1)) / b < S k) by lia.
    apply Nat.Div0.div_lt_upper_bound. nia.
Qed.

(** C6: a snapshot of N watched accounts is cut into ceil(N/99) sub-batches of
    at most 99 accounts, and these into ceil(ceil(N/99)/10) groups of at most
    10 sub-batches; the groups joined give back the sub-batches and the
    sub-batches joined give back the snapshot, so that every address of the
    snapshot is in exactly one sub-batch; 150 accounts make 2 sub-batches in
    1 group. *)
Theorem partition_covers_snapshot (snapshot : list AccountToLoad) :
  NoDup (address <$> snapshot) →
  ∃ sub_batches groups,
    chunks snapshot GET_MULTIPLE_ACCOUNTS_CHUNK_SIZE = Some sub_batches ∧
    chunks sub_batches 10 = Some groups ∧
    partition snapshot = Some groups ∧
    length sub_batches = ceil_div (length snapshot) 99 ∧
    Forall (fun b => 0 < length b ≤ 99) sub_batches ∧
    length groups = ceil_div (ceil_div (length snapshot) 99) 10 ∧
    Forall (fun g => 0 < length g ≤ 10) groups ∧
    concat groups = sub_batches ∧
    concat sub_batches = snapshot ∧
    (∀ addr, addr ∈ address <$> snapshot →
       ∃ i, (∃ b, sub_batches !! i = Some b ∧ addr ∈ address <$> b) ∧
            ∀ j b', sub_batches !! j = Some b' → addr ∈ address <$> b' → j = i) ∧
    (length snapshot = 150 → length sub_batches = 2 ∧ length groups = 1).
Proof.
  intros Hnd.
  set (sub_batches := chop (length snapshot) 99 snapshot).
  set (groups := chop (length sub_batches) 10 sub_batches).
  assert (Hsub : chunks snapshot GET_MULTIPLE_ACCOUNTS_CHUNK_SIZE = Some sub_batches)
    by (apply chunks_chop; unfold GET_MULTIPLE_ACCOUNTS_CHUNK_SIZE; lia).
  assert (Hgrp : chunks sub_batches 10 = Some groups) by (apply chunks_chop; lia).
  assert (Hlen : length sub_batches = ceil_div (length snapshot) 99)
    by (apply length_chop; lia).
  assert (Hcat : concat sub_batches = snapshot) by (apply concat_chop; lia).
  exists sub_batches, groups. split_and!; try done.
  - unfold partition. by rewrite Hsub.
  - apply Forall_chop. lia.
  - rewrite <- Hlen. apply length_chop; lia.
  - apply Forall_chop. lia.
  - apply concat_chop; lia.
  - intros addr Hin.
    assert (Hcat' : concat ((fun b : list AccountToLoad => address <$> b)
                              <$> sub_batches) = address <$> snapshot).
    { rewrite <- Hcat. generalize sub_batches. clear.
      induction sub_batches as [|b L IH]; [done|].
      rewrite fmap_cons, !concat_cons, fmap_app. by rewrite IH. }
    rewrite <- Hcat' in Hin, Hnd.
    apply list_elem_of_In, in_concat in Hin as (bs & Hbs & Hx).
    apply list_elem_of_In, list_elem_of_lookup in Hbs as [i Hi].
    apply list_elem_of_In in Hx.
    exists i. split.
    + rewrite list_lookup_fmap in Hi.
      destruct (sub_batches !! i) as [b|] eqn:Hb; [|done].
      injection Hi as <-. by exists b.
    + intros j b' Hj Hx'.
      eapply (NoDup_concat_disjoint _ Hnd j i); [|exact Hi|exact Hx'|exact Hx].
      by rewrite list_lookup_fmap, Hj.
  - intros H150. assert (length sub_batches = 2) as H2.
    { rewrite Hlen, H150. reflexivity. }
    split; [done|]. unfold groups. rewrite length_chop by lia.
    rewrite H2. reflexivity.
Qed.

Lemma partition_covers_snapshot_witness :
  NoDup (address <$> snapshot_150) ∧
  ∃ groups,
    partition snapshot_150 = Some groups ∧
    length (concat groups) = 2 ∧ length groups = 1 ∧
    concat (concat groups) = snapshot_150.
Proof.
  assert (Hnd : NoDup (address <$> snapshot_150)).
  { apply (bool_decide_unpack _). vm_compute. exact I. }
  split; [exact Hnd|].
  destruct (partition_covers_snapshot snapshot_150 Hnd)
    as (sub_batches & groups & _ & _ & Hp & _ & _ & _ & _ & Hg & Hs & _ & H150).
  exists groups. rewrite Hg, Hs.
  destruct (H150 eq_refl) as [H2 H1]. done.
Defined.

(** ** Registration *)

(** C1: [add_account] hands out the counter as it stands and never advances
    it (only [get_callback_id] does, and [add_account] does not call it):
    two registrations in a row return the same id, which is 0 on a fresh
    loader, instead of a strictly greater one. *)
Theorem add_account_reuses_callback_id pk1 cb1 pk2 cb2 st :
  (add_account pk1 cb1 st).1 = callback_id st ∧
  callback_id (add_account pk1 cb1 st).2 = callback_id st ∧
  (add_account pk2 cb2 (add_account pk1 cb1 st).2).1 = (add_account pk1 cb1 st).1 ∧
  (add_account pk1 cb1 fresh).1 = 0%Z ∧
  (add_account pk2 cb2 (add_account pk1 cb1 fresh).2).1 = 0%Z.
Proof.
  assert (Hid : ∀ pk cb st', callback_id (add_account pk cb st').2 = callback_id st').
  { intros pk cb st'. unfold add_account.
    destruct (dict_get _ _); destruct (decide _); reflexivity. }
  split_and!; try reflexivity; apply Hid.
Qed.

(** C2: two callbacks registered for one address end up under the same id 0,
    the second in the place of the first; a content change then calls the
    second callback once and the first not at all. *)
Theorem second_callback_replaces_first :
  accounts_to_load watched_twice
  = [("A", {| pubkey := key_A; callback := [(0%Z, 2)] |})] ∧
  trace (load_cycle b64decode_padded (answer 5 [Some "YWJj"]) watched_twice).1
  = [Called "A" 0 2 (Some "abc") 5] ∧
  times_called 1
    (trace (load_cycle b64decode_padded (answer 5 [Some "YWJj"]) watched_twice).1)
  = 0 ∧
  times_called 2
    (trace (load_cycle b64decode_padded (answer 5 [Some "YWJj"]) watched_twice).1)
  = 1.
Proof. split_and!; vm_compute; reflexivity. Qed.

(** ** Dispatch *)

Lemma emit_nil st : emit [] st = st.
Proof. destruct st. unfold emit. simpl. by rewrite app_nil_r. Qed.

Lemma emit_emit evs1 evs2 st : emit evs2 (emit evs1 st) = emit (evs1 ++ evs2) st.
Proof. unfold emit. simpl. by rewrite app_assoc. Qed.

Lemma handle_callbacks_emit a buffer s st :
  handle_callbacks a buffer s st = emit (calls a buffer s) st.
Proof.
  unfold handle_callbacks, calls. generalize (callback a) as cbs.
  intros cbs. revert st. induction cbs as [|[id cb] cbs IH]; intros st.
  - by rewrite emit_nil.
  - rewrite fmap_cons. cbn [foldl]. rewrite IH.
    change (is_not_None builtins_bytes) with true. cbv iota.
    by rewrite emit_emit.
Qed.

Section load_account_cases.
Variable b64decode : string -> option bytes.
Implicit Types (st : BulkAccountLoader) (a : AccountToLoad).

Lemma load_account_stale s a value st :
  is_stale s (buffer_and_slot_map st !! address a) = true →
  load_account b64decode s a value st = (st, value, Returned).
Proof. intros H. unfold load_account, address in *. by rewrite H. Qed.

Lemma load_account_undecodable s a value st :
  is_stale s (buffer_and_slot_map st !! address a) = false →
  new_buffer_of b64decode (pop_0 value).1 = None →
  load_account b64decode s a value st
  = (st, (pop_0 value).2, Raised binascii_Error).
Proof.
  intros H Hd. unfold load_account, address in *. rewrite H.
  destruct (pop_0 value) as [account value']. simpl in *. by rewrite Hd.
Qed.

Lemma load_account_changed s a value st new_buffer :
  is_stale s (buffer_and_slot_map st !! address a) = false →
  new_buffer_of b64decode (pop_0 value).1 = Some new_buffer →
  is_changed new_buffer (buffer_and_slot_map st !! address a) = true →
  load_account b64decode s a value st
  = (set_buffer_and_slot_map
       (<[address a := {| slot := s; buffer := new_buffer |}]>
          (buffer_and_slot_map st))
       (emit (calls a new_buffer s) st),
     (pop_0 value).2, Returned).
Proof.
  intros H Hd Hc. unfold load_account, address in *. rewrite H.
  destruct (pop_0 value) as [account value']. simpl in *.
  rewrite Hd, Hc, handle_callbacks_emit. done.
Qed.

Lemma load_account_unchanged s a value st new_buffer :
  is_stale s (buffer_and_slot_map st !! address a) = false →
  new_buffer_of b64decode (pop_0 value).1 = Some new_buffer →
  is_changed new_buffer (buffer_and_slot_map st !! address a) = false →
  load_account b64decode s a value st = (st, (pop_0 value).2, Returned).
Proof.
  intros H Hd Hc. unfold load_account, address in *. rewrite H.
  destruct (pop_0 value) as [account value']. simpl in *.
  by rewrite Hd, Hc.
Qed.
End load_account_cases.

(** C9: the dispatch routine calls every registered callback of the account
    with the new buffer and the new version, whether the buffer is present or
    absent: [bytes] in its guard is the builtin type, which is not [None], so
    the guard lets every call through; and a detected change runs the
    dispatch. *)
Theorem dispatch_calls_every_callback a buffer s st :
  is_not_None builtins_bytes = true ∧
  trace (handle_callbacks a buffer s st) = trace st ++ calls a buffer s ∧
  trace (handle_callbacks a None s st) = trace st ++ calls a None s ∧
  (∀ id cb, (id, cb) ∈ callback a →
     Called (address a) id cb buffer s ∈ trace (handle_callbacks a buffer s st)) ∧
  (∀ b64decode value,
     is_stale s (buffer_and_slot_map st !! address a) = false →
     new_buffer_of b64decode (pop_0 value).1 = Some buffer →
     is_changed buffer (buffer_and_slot_map st !! address a) = true →
     trace (load_account b64decode s a value st).1.1
     = trace st ++ calls a buffer s).
Proof.
  split_and!.
  - reflexivity.
  - by rewrite handle_callbacks_emit.
  - by rewrite handle_callbacks_emit.
  - intros id cb Hin. rewrite handle_callbacks_emit. simpl.
    apply elem_of_app. right. unfold calls.
    apply (list_elem_of_fmap_2 (fun '(id, cb) => Called (address a) id cb buffer s)
             _ (id, cb) Hin).
  - intros b64decode value Hs Hd Hc.
    by rewrite (load_account_changed _ _ _ _ _ _ Hs Hd Hc).
Qed.

(** ** Reconciliation of one account *)

Lemma is_stale_false_iff s old_entry :
  is_stale s old_entry = false ↔ ∀ old, old_entry = Some old → (slot old < s)%Z.
Proof.
  destruct old_entry as [old|]; simpl.
  - rewrite bool_decide_eq_false. split.
    + intros H ? [= <-]. lia.
    + intros H. specialize (H old eq_refl). lia.
  - split; [intros _ ? [=] | done].
Qed.


Lemma calls_inv a buffer s e :
  e ∈ calls a buffer s →
  ∃ id cb, (id, cb) ∈ callback a ∧ e = Called (address a) id cb buffer s.
Proof.
  unfold calls. intros ([id cb] & -> & Hin)%list_elem_of_fmap. eauto.
Qed.

(** One turn of the inner loop leaves the loader as it was, or, for an
    account that is not stale, dispatches and then writes the cache. *)
Lemma load_account_frame b64decode s a value st :
  (load_account b64decode s a value st).1.1 = st ∨
  is_stale s (buffer_and_slot_map st !! address a) = false ∧
  ∃ new_buffer,
    (load_account b64decode s a value st).1.1
    = set_buffer_and_slot_map
        (<[address a := {| slot := s; buffer := new_buffer |}]>
           (buffer_and_slot_map st))
        (emit (calls a new_buffer s) st).
Proof.
  destruct (is_stale s (buffer_and_slot_map st !! address a)) eqn:Hs.
  { left. by rewrite load_account_stale. }
  destruct (new_buffer_of b64decode (pop_0 value).1) as [new_buffer|] eqn:Hd.
  2: { left. by rewrite load_account_undecodable. }
  destruct (is_changed new_buffer (buffer_and_slot_map st !! address a)) eqn:Hc.
  - right. split; [done|]. exists new_buffer.
    by rewrite (load_account_changed _ _ _ _ _ _ Hs Hd Hc).
  - left. by rewrite (load_account_unchanged _ _ _ _ _ _ Hs Hd Hc).
Qed.



(** ** Reconciliation of one sub-batch *)

(** C3: when the slot of a response is not beyond the slot cached for an
    address, reconciling the sub-batch leaves the cache entry of that address
    as it was and calls no callback of that address, whatever else the
    sub-batch holds. *)
Theorem stale_response_ignored b64decode s chunk_accounts value st addr old :
  buffer_and_slot_map st !! addr = Some old →
  (s ≤ slot old)%Z →
  buffer_and_slot_map (load_accounts b64decode s chunk_accounts value st).1 !! addr
  = Some old ∧
  ∃ evs,
    trace (load_accounts b64decode s chunk_accounts value st).1 = trace st ++ evs ∧
    ∀ i cb b v, Called addr i cb b v ∉ evs.
Proof.
  intros Hold Hle. revert value st Hold.
  induction chunk_accounts as [|a rest IH]; intros value st Hold.
  { split; [done|]. exists []. split; [by rewrite app_nil_r|].
    intros ????. apply not_elem_of_nil. }
  cbn [load_accounts].
  assert (Hone :
    buffer_and_slot_map (load_account b64decode s a value st).1.1 !! addr
    = Some old ∧
    ∃ evs, trace (load_account b64decode s a value st).1.1 = trace st ++ evs ∧
           ∀ i cb b v, Called addr i cb b v ∉ evs).
  { destruct (load_account_frame b64decode s a value st)
      as [-> | (Hfresh & new_buffer & ->)].
    - split; [done|]. exists []. split; [by rewrite app_nil_r|].
      intros ????. apply not_elem_of_nil.
    - assert (address a ≠ addr) as Hne.
      { intros Heq. rewrite Heq, Hold in Hfresh. simpl in Hfresh.
        apply bool_decide_eq_false in Hfresh. lia. }
      simpl. split; [by rewrite lookup_insert_ne|].
      exists (calls a new_buffer s). split; [done|].
      intros i cb b v (id' & cb' & _ & [= ? _ _ _ _])%calls_inv. congruence. }
  destruct (load_account b64decode s a value st) as [[st1 value1] o1].
  simpl in Hone. destruct Hone as (Hold1 & evs1 & Htr1 & Hevs1).
  destruct o1 as [|e].
  - destruct (IH value1 st1 Hold1) as (Hc & evs2 & Htr2 & Hevs2).
    split; [done|]. exists (evs1 ++ evs2). split.
    + by rewrite Htr2, Htr1, app_assoc.
    + intros i cb b v [?|?]%elem_of_app; [by eapply Hevs1 | by eapply Hevs2].
  - simpl. split; [done|]. by exists evs1.
Qed.

Lemma stale_response_ignored_witness :
  buffer_and_slot_map seen_A_at_5 !! "A"
  = Some {| slot := 5; buffer := Some "abc" |} ∧
  (4 ≤ 5)%Z ∧
  buffer_and_slot_map
    (load_accounts b64decode_padded 4
       [{| pubkey := key_A; callback := [(0%Z, 1)] |}]
       [Some {| jsonrpcclient.data_0 := "eHl6" |}] seen_A_at_5).1 !! "A"
  = Some {| slot := 5; buffer := Some "abc" |}.
Proof.
  assert (H45 : (4 ≤ slot {| slot := 5; buffer := Some "abc" |})%Z)
    by (simpl; lia).
  split; [reflexivity|]. split; [lia|].
  exact (proj1 (stale_response_ignored b64decode_padded 4
    [{| pubkey := key_A; callback := [(0%Z, 1)] |}]
    [Some {| jsonrpcclient.data_0 := "eHl6" |}] seen_A_at_5 "A"
    {| slot := 5; buffer := Some "abc" |} eq_refl H45)).
Defined.

(** C4: an account skipped as stale takes no entry off the response, so the
    next account of the sub-batch is given the entry of the skipped one. With
    A and B watched, A changing at slot 10 while B keeps its content of slot
    5, a second answer for slot 10 skips A and hands the payload of A to the
    callback of B, and caches it for B, although the answer carried the
    unchanged payload of B in second place. *)
Theorem stale_account_shifts_payloads :
  trace
    (load b64decode_padded
       [answer 5 [Some "YQ=="; Some "Yg=="];
        answer 10 [Some "QQ=="; Some "Yg=="];
        answer 10 [Some "QQ=="; Some "Yg=="]] watching_A_B).1
  = [Called "A" 0 1 (Some "a") 5; Called "B" 0 2 (Some "b") 5;
     Called "A" 0 1 (Some "A") 10; Called "B" 0 2 (Some "A") 10] ∧
  buffer_and_slot_map
    (load b64decode_padded
       [answer 5 [Some "YQ=="; Some "Yg=="];
        answer 10 [Some "QQ=="; Some "Yg=="];
        answer 10 [Some "QQ=="; Some "Yg=="]] watching_A_B).1 !! "B"
  = Some {| slot := 10; buffer := Some "A" |} ∧
  b64decode_padded "Yg==" = Some "b" ∧
  b64decode_padded "QQ==" = Some "A".
Proof. split_and!; vm_compute; reflexivity. Qed.

(** ** Dictionaries *)

Section dict_facts.
Context {K V : Type} `{!EqDecision K}.
Implicit Types (d : dict K V).

Lemma dict_get_Some_elem k v d : dict_get k d = Some v → (k, v) ∈ d.
Proof.
  induction d as [|[k' v'] d IH]; [done|]. simpl.
  destruct (decide (k = k')) as [->|Hne].
  - intros [= ->]. apply list_elem_of_here.
  - intros H. apply list_elem_of_further. auto.
Qed.

Lemma dict_get_None_keys k d : dict_get k d = None → k ∉ dict_keys d.
Proof.
  unfold dict_keys. induction d as [|[k' v'] d IH]; simpl.
  - intros _. apply not_elem_of_nil.
  - destruct (decide (k = k')) as [->|Hne]; [done|].
    intros H [?|?]%elem_of_cons; [done|]. by apply IH.
Qed.

Lemma dict_get_elem k v d : NoDup (dict_keys d) → (k, v) ∈ d → dict_get k d = Some v.
Proof.
  unfold dict_keys. induction d as [|[k' v'] d IH]; simpl.
  - intros _ []%elem_of_nil.
  - intros [Hnotin Hnd]%NoDup_cons [[= -> ->]|Hin]%elem_of_cons.
    + by rewrite decide_True.
    + destruct (decide (k = k')) as [->|Hne]; [|by apply IH].
      exfalso. apply Hnotin.
      apply (list_elem_of_fmap_2 fst _ (k', v) Hin).
Qed.

Lemma dict_keys_set k v d :
  dict_keys (dict_set k v d)
  = match dict_get k d with
    | Some _ => dict_keys d
    | None => dict_keys d ++ [k]
    end.
Proof.
  unfold dict_keys. induction d as [|[k' v'] d IH]; [done|]. simpl.
  destruct (decide (k = k')) as [->|Hne]; [done|].
  rewrite fmap_cons, IH. by destruct (dict_get k d).
Qed.

Lemma NoDup_dict_keys_set k v d :
  NoDup (dict_keys d) → NoDup (dict_keys (dict_set k v d)).
Proof.
  intros Hnd. rewrite dict_keys_set.
  destruct (dict_get k d) eqn:Hget; [done|].
  apply NoDup_app. split_and!; [done| |apply NoDup_singleton].
  intros x Hx ->%list_elem_of_singleton. by apply dict_get_None_keys in Hget.
Qed.

Lemma dict_set_elem k v k' v' d :
  (k', v') ∈ dict_set k v d → (k', v') = (k, v) ∨ (k', v') ∈ d.
Proof.
  induction d as [|[k0 v0] d IH]; simpl.
  - intros ->%list_elem_of_singleton. by left.
  - destruct (decide (k = k0)) as [->|Hne].
    + intros [->|?]%elem_of_cons; [by left|]. right. by apply list_elem_of_further.
    + intros [->|?]%elem_of_cons; [right; apply list_elem_of_here|].
      destruct IH as [?|?]; [done|by left|]. right. by apply list_elem_of_further.
Qed.

Lemma dict_set_nonempty k v d : dict_set k v d ≠ [].
Proof. destruct d as [|[k' v'] d]; simpl; [done|]. by destruct (decide _). Qed.

Lemma dict_keys_set_mono k v k' d :
  k' ∈ dict_keys d → k' ∈ dict_keys (dict_set k v d).
Proof.
  rewrite dict_keys_set. destruct (dict_get k d); [done|].
  intros. apply elem_of_app. by left.
Qed.
End dict_facts.

(** ** Registration keeps the registry in shape *)

Lemma add_account_fields pk cb st :
  trace (add_account pk cb st).2 = trace st ∧
  buffer_and_slot_map (add_account pk cb st).2 = buffer_and_slot_map st ∧
  accounts_to_load (add_account pk cb st).2
  = dict_set (str pk)
      (match dict_get (str pk) (accounts_to_load st) with
       | Some existing => set_callback (callback_id st) cb existing
       | None => {| pubkey := pk; callback := [(callback_id st, cb)] |}
       end) (accounts_to_load st) ∧
  tasks_created (add_account pk cb st).2
  = tasks_created st + (if decide (accounts_to_load st = []) then 1 else 0).
Proof.
  unfold add_account, dict_len.
  destruct (accounts_to_load st) as [|kv reg] eqn:Hreg.
  - simpl. split_and!; try done. lia.
  - destruct (dict_get (str pk) (kv :: reg)) as [existing|];
      rewrite decide_False by done; simpl; split_and!; try done; lia.
Qed.

Lemma add_account_registry_wf pk cb st :
  registry_wf (accounts_to_load st) →
  registry_wf (accounts_to_load (add_account pk cb st).2).
Proof.
  intros [Hnd Hwf]. destruct (add_account_fields pk cb st) as (_ & _ & -> & _).
  split; [by apply NoDup_dict_keys_set|].
  intros k a [[= -> ->]|Hin]%dict_set_elem; [|by apply Hwf].
  destruct (dict_get (str pk) (accounts_to_load st)) as [existing|] eqn:Hget.
  - apply dict_get_Some_elem, Hwf in Hget as (Haddr & Hkeys & _).
    split_and!; [done| |apply dict_set_nonempty].
    by apply NoDup_dict_keys_set.
  - split_and!; [done| |done]. apply NoDup_singleton.
Qed.

(** ** The versions in a trace *)

Lemma versions_to_app addr tr1 tr2 :
  versions_to addr (tr1 ++ tr2) = versions_to addr tr1 ++ versions_to addr tr2.
Proof. apply omap_app. Qed.

Lemma versions_seen_app addr id tr1 tr2 :
  versions_seen addr id (tr1 ++ tr2)
  = versions_seen addr id tr1 ++ versions_seen addr id tr2.
Proof. apply omap_app. Qed.

Lemma versions_to_elem addr tr v :
  v ∈ versions_to addr tr → ∃ i cb b, Called addr i cb b v ∈ tr.
Proof.
  unfold versions_to. intros (e & He & Hv)%list_elem_of_omap.
  destruct e as [a i cb b v'|]; [|done].
  destruct (decide (a = addr)) as [->|]; [|done]. injection Hv as ->. eauto.
Qed.

Lemma versions_seen_elem addr id tr v :
  v ∈ versions_seen addr id tr → ∃ cb b, Called addr id cb b v ∈ tr.
Proof.
  unfold versions_seen. intros (e & He & Hv)%list_elem_of_omap.
  destruct e as [a i cb b v'|]; [|done].
  destruct (decide (a = addr ∧ i = id)) as [[-> ->]|]; [|done].
  injection Hv as ->. eauto.
Qed.

Lemma versions_seen_calls addr id a buffer s :
  NoDup (dict_keys (callback a)) →
  versions_seen addr id (calls a buffer s) = [] ∨
  versions_seen addr id (calls a buffer s) = [s].
Proof.
  unfold calls, dict_keys. generalize (callback a) as cbs.
  assert (Hnone : ∀ cbs : dict Z Callback, id ∉ cbs.*1 →
    versions_seen addr id
      ((fun '(id, cb) => Called (address a) id cb buffer s) <$> cbs) = []).
  { induction cbs as [|[i cb] cbs IH]; [done|]. simpl.
    intros [Hne Hnotin]%not_elem_of_cons. rewrite decide_False by (intros [_ ?]; congruence).
    by apply IH. }
  induction cbs as [|[i cb] cbs IH]; [by left|]. simpl.
  intros [Hnotin Hnd]%NoDup_cons.
  destruct (decide (address a = addr ∧ i = id)) as [[_ ->]|Hne].
  - right. fold (versions_seen addr id
      ((fun '(id, cb) => Called (address a) id cb buffer s) <$> cbs)).
    by rewrite Hnone.
  - by apply IH.
Qed.

Lemma StronglySorted_le_constant (s : Z) l :
  (∀ v, v ∈ l → v = s) → StronglySorted Z.le l.
Proof.
  induction l as [|x l IH]; intros Hall; constructor.
  - apply IH. intros v Hv. apply Hall. by apply list_elem_of_further.
  - apply Forall_forall. intros v Hv.
    rewrite (Hall x), (Hall v); [lia| |apply list_elem_of_here].
    by apply list_elem_of_further.
Qed.

(** ** What the background task keeps *)

Lemma cache_le_refl m : cache_le m m.
Proof. intros addr old H. exists old. split; [done | lia]. Qed.

Lemma cache_le_trans m1 m2 m3 : cache_le m1 m2 → cache_le m2 m3 → cache_le m1 m3.
Proof.
  intros H12 H23 addr old H.
  destruct (H12 _ _ H) as (mid & Hmid & ?).
  destruct (H23 _ _ Hmid) as (new & Hnew & ?).
  exists new. split; [done | lia].
Qed.

Lemma advances_refl st : advances st st.
Proof. split_and!; try done. apply cache_le_refl. Qed.

Lemma advances_trans st1 st2 st3 :
  advances st1 st2 → advances st2 st3 → advances st1 st3.
Proof.
  intros (Hr1 & Ht1 & Hc1 & Hi1) (Hr2 & Ht2 & Hc2 & Hi2). split_and!.
  - congruence.
  - congruence.
  - by eapply cache_le_trans.
  - auto.
Qed.

Lemma emit_printed_advances line st : advances st (emit [Printed line] st).
Proof.
  split_and!; try done; [apply cache_le_refl|].
  intros (Hreg & Hdel & Hto & Hseen & Htasks). split_and!; try done.
  - intros a i cb b v [Hin|Hin]%elem_of_app; [by eapply Hdel|].
    by apply list_elem_of_singleton in Hin.
  - intros a. simpl. rewrite versions_to_app. simpl. by rewrite app_nil_r.
  - intros a i. simpl. rewrite versions_seen_app. simpl. by rewrite app_nil_r.
Qed.

(** Whatever was delivered for an address that is not stale is older than
    the slot at hand. *)
Lemma delivered_before_fresh st addr s i cb b v :
  delivered_cached st →
  is_stale s (buffer_and_slot_map st !! addr) = false →
  Called addr i cb b v ∈ trace st → (v < s)%Z.
Proof.
  intros Hdel Hfresh Hin. destruct (Hdel _ _ _ _ _ Hin) as (old & Hold & Hle).
  pose proof (proj1 (is_stale_false_iff _ _) Hfresh old Hold). lia.
Qed.

Lemma load_account_advances b64decode s a value st :
  NoDup (dict_keys (callback a)) →
  advances st (load_account b64decode s a value st).1.1.
Proof.
  intros Hkeys.
  destruct (load_account_frame b64decode s a value st)
    as [-> | (Hfresh & new_buffer & ->)]; [apply advances_refl|].
  split_and!; try done.
  - intros addr old Hold. simpl.
    destruct (decide (address a = addr)) as [<-|Hne].
    + rewrite lookup_insert_eq. eexists. split; [done|]. simpl.
      pose proof (proj1 (is_stale_false_iff _ _) Hfresh old Hold). lia.
    + rewrite lookup_insert_ne by done. exists old. split; [done | lia].
  - intros (Hreg & Hdel & Hto & Hseen & Htasks). split_and!; try done.
    + intros addr i cb b v [Hin|Hin]%elem_of_app; simpl.
      * destruct (decide (address a = addr)) as [<-|Hne].
        -- rewrite lookup_insert_eq. eexists. split; [done|]. simpl.
           pose proof (delivered_before_fresh _ _ _ _ _ _ _ Hdel Hfresh Hin). lia.
        -- rewrite lookup_insert_ne by done. by eapply Hdel.
      * apply calls_inv in Hin as (id' & cb' & _ & [= -> _ _ _ ->]).
        rewrite lookup_insert_eq. eexists. split; [done|]. simpl. lia.
    + intros addr. simpl. rewrite versions_to_app.
      assert (Hnew : ∀ v, v ∈ versions_to addr (calls a new_buffer s) →
                          v = s ∧ addr = address a).
      { intros v (i & cb & b & Hin)%versions_to_elem.
        by apply calls_inv in Hin as (id' & cb' & _ & [= -> _ _ _ ->]). }
      apply StronglySorted_app_2; [|done|].
      * intros v1 v2 (i & cb & b & Hin)%versions_to_elem [-> ->]%Hnew.
        pose proof (delivered_before_fresh _ _ _ _ _ _ _ Hdel Hfresh Hin). lia.
      * apply (StronglySorted_le_constant s). intros v Hv. by apply Hnew.
    + intros addr i. simpl. rewrite versions_seen_app.
      apply StronglySorted_app_2; [|done|].
      * intros v1 v2 (cb & b & Hin)%versions_seen_elem
          (cb2 & b2 & Hin2)%versions_seen_elem.
        apply calls_inv in Hin2 as (id' & cb' & _ & [= -> _ _ _ ->]).
        exact (delivered_before_fresh _ _ _ _ _ _ _ Hdel Hfresh Hin).
      * destruct (versions_seen_calls addr i a new_buffer s Hkeys) as [-> | ->];
          repeat constructor.
Qed.

Lemma load_accounts_advances b64decode s chunk_accounts value st :
  Forall (fun a => NoDup (dict_keys (callback a))) chunk_accounts →
  advances st (load_accounts b64decode s chunk_accounts value st).1.
Proof.
  intros Hall. revert value st.
  induction Hall as [|a rest Ha _ IH]; intros value st; [apply advances_refl|].
  cbn [load_accounts].
  pose proof (load_account_advances b64decode s a value st Ha) as Hone.
  destruct (load_account b64decode s a value st) as [[st1 value1] [|e]];
    simpl in Hone; [|done].
  eapply advances_trans; [exact Hone | apply IH].
Qed.

Lemma load_results_advances b64decode pairs st :
  Forall (fun p => Forall (fun a => NoDup (dict_keys (callback a))) p.2) pairs →
  advances st (load_results b64decode pairs st).1.
Proof.
  intros Hall. revert st.
  induction Hall as [|[r accounts] rest Hp _ IH]; intros st; [apply advances_refl|].
  cbn [load_results]. destruct r as [result|message].
  - pose proof (load_accounts_advances b64decode
      (jsonrpcclient.context_slot result) accounts
      (jsonrpcclient.value result) st Hp) as Hone.
    destruct (load_accounts _ _ _ _ _) as [st1 [|e]]; simpl in Hone; [|done].
    eapply advances_trans; [exact Hone | apply IH].
  - eapply advances_trans; [apply emit_printed_advances | apply IH].
Qed.

Lemma Forall_zip_snd {A B} (P : B → Prop) (l : list A) (k : list B) :
  Forall P k → Forall (fun p => P p.2) (zip l k).
Proof.
  intros Hk. revert l. induction Hk as [|y k Hy _ IH]; intros [|x l];
    simpl; constructor; auto.
Qed.

Lemma load_chunk_advances b64decode post chunk st :
  Forall (Forall (fun a => NoDup (dict_keys (callback a)))) chunk →
  advances st (load_chunk b64decode post chunk st).1.
Proof.
  intros Hall. unfold load_chunk.
  destruct (decide (length chunk = 0)); [apply advances_refl|].
  destruct (post _) as [parsed_resp|]; [|apply advances_refl].
  apply load_results_advances. by apply Forall_zip_snd.
Qed.

(** The accounts the task holds are well formed when the registry is. *)
Lemma registered_wf st chunk :
  registry_wf (accounts_to_load st) → registered st chunk →
  Forall (Forall (fun a => NoDup (dict_keys (callback a)))) chunk.
Proof.
  intros [_ Hwf] Hreg. apply Forall_forall. intros batch Hbatch.
  apply Forall_forall. intros a Ha.
  specialize (Hreg batch a Hbatch Ha).
  by apply dict_get_Some_elem, Hwf in Hreg as (_ & ? & _).
Qed.

(** ** The invariant of the loader *)

Lemma init_inv c f : loader_inv (init c f).
Proof.
  split_and!; simpl; try done.
  - split; [apply NoDup_nil_2 | by intros k a ?%elem_of_nil].
  - by intros a i cb b v ?%elem_of_nil.
  - intros; constructor.
  - intros; constructor.
Qed.

Lemma step_sound b64decode st st' :
  step b64decode st st' → loader_inv st →
  loader_inv st' ∧
  cache_le (buffer_and_slot_map st) (buffer_and_slot_map st') ∧
  (∀ k, k ∈ dict_keys (accounts_to_load st) → k ∈ dict_keys (accounts_to_load st')).
Proof.
  intros Hstep Hinv. destruct Hstep as [pk cb st|st|st|post chunk st Hreg].
  - destruct (add_account_fields pk cb st) as (Htr & Hcache & Hacc & Htasks).
    destruct Hinv as (Hwf & Hdel & Hto & Hseen & Hcount). split_and!.
    + split_and!.
      * by apply add_account_registry_wf.
      * unfold delivered_cached. by rewrite Htr, Hcache.
      * by rewrite Htr.
      * by rewrite Htr.
      * rewrite Htasks, Hcount, Hacc.
        rewrite (decide_False (P := dict_set _ _ _ = [])) by apply dict_set_nonempty.
        by destruct (decide (accounts_to_load st = [])).
    + rewrite Hcache. apply cache_le_refl.
    + intros k Hk. rewrite Hacc. by apply dict_keys_set_mono.
  - split_and!; [done | apply cache_le_refl | done].
  - split_and!; [|unfold unsubscribe; destruct (task st); apply cache_le_refl
                 |unfold unsubscribe; by destruct (task st)].
    unfold unsubscribe. by destruct (task st).
  - destruct Hinv as (Hwf & Hrest).
    destruct (load_chunk_advances b64decode post chunk st
                (registered_wf _ _ Hwf Hreg)) as (Hacc & _ & Hcache & Hkeep).
    split_and!; [by apply Hkeep | done | by rewrite Hacc].
Qed.

Lemma reachable_inv b64decode st : reachable b64decode st → loader_inv st.
Proof.
  intros (c & f & Hrtc). revert st Hrtc.
  apply (rtc_ind_r (fun st => loader_inv st)); [apply init_inv|].
  intros st1 st2 _ Hstep IH. by apply (step_sound _ _ _ Hstep).
Qed.

Lemma reachable_later b64decode st st' :
  reachable b64decode st → rtc (step b64decode) st st' → reachable b64decode st'.
Proof. intros (c & f & H) H'. exists c, f. by etrans. Qed.

Lemma steps_sound b64decode st st' :
  loader_inv st → rtc (step b64decode) st st' →
  loader_inv st' ∧
  cache_le (buffer_and_slot_map st) (buffer_and_slot_map st') ∧
  (∀ k, k ∈ dict_keys (accounts_to_load st) → k ∈ dict_keys (accounts_to_load st')).
Proof.
  intros Hinv Hrtc. revert st' Hrtc.
  apply (rtc_ind_r (fun st' => loader_inv st' ∧
           cache_le (buffer_and_slot_map st) (buffer_and_slot_map st') ∧
           (∀ k, k ∈ dict_keys (accounts_to_load st) →
                 k ∈ dict_keys (accounts_to_load st')))).
  - split_and!; [done | apply cache_le_refl | done].
  - intros st1 st2 _ Hstep (IHinv & IHle & IHkeys).
    destruct (step_sound _ _ _ Hstep IHinv) as (? & ? & ?).
    split_and!; [done | by eapply cache_le_trans | auto].
Qed.


(** C10: a registration creates the background task exactly when the
    registry was empty before it; the registry is not empty afterwards and
    addresses never leave it, so over the life of a loader at most one task
    is created: none while the registry is empty, one from the first
    registration on. *)
Theorem background_task_created_once b64decode st :
  reachable b64decode st →
  tasks_created st ≤ 1 ∧
  (tasks_created st = 1 ↔ accounts_to_load st ≠ []) ∧
  (∀ pk cb,
     (tasks_created (add_account pk cb st).2 = S (tasks_created st)
      ↔ accounts_to_load st = []) ∧
     (accounts_to_load st ≠ [] →
      tasks_created (add_account pk cb st).2 = tasks_created st ∧
      task (add_account pk cb st).2 = task st) ∧
     accounts_to_load (add_account pk cb st).2 ≠ []) ∧
  (∀ st', rtc (step b64decode) st st' →
     (∀ k, k ∈ dict_keys (accounts_to_load st) →
           k ∈ dict_keys (accounts_to_load st')) ∧
     tasks_created st ≤ tasks_created st' ≤ 1).
Proof.
  intros Hreach. pose proof (reachable_inv _ _ Hreach) as Hinv.
  assert (Hcount : ∀ st0, loader_inv st0 →
    tasks_created st0 = (if decide (accounts_to_load st0 = []) then 0 else 1))
    by (by intros st0 (_ & _ & _ & _ & ?)).
  pose proof (Hcount st Hinv) as Hst.
  split_and!.
  - rewrite Hst. destruct (decide _); lia.
  - rewrite Hst. destruct (decide _); split; (done || lia).
  - intros pk cb. destruct (add_account_fields pk cb st) as (_ & _ & Hacc & Htasks).
    split_and!.
    + rewrite Htasks. destruct (decide (accounts_to_load st = [])); split;
        (done || lia).
    + intros Hne. split.
      * rewrite Htasks, decide_False by done. lia.
      * unfold add_account, dict_len.
        destruct (dict_get _ _); rewrite decide_False; try done;
          by destruct (accounts_to_load st).
    + rewrite Hacc. apply dict_set_nonempty.
  - intros st' Hrtc. destruct (steps_sound _ _ _ Hinv Hrtc) as (Hinv' & _ & Hkeys).
    split; [done|]. rewrite Hst, (Hcount st' Hinv').
    destruct (decide (accounts_to_load st = [])) as [|Hne];
      destruct (decide (accounts_to_load st' = [])) as [He'|]; try lia.
    exfalso. destruct (accounts_to_load st) as [|[k a] reg]; [done|].
    specialize (Hkeys k (list_elem_of_here _ _)). rewrite He' in Hkeys.
    by apply elem_of_nil in Hkeys.
Qed.

(** ** The polling loop is made of steps *)

Lemma dict_values_registered reg a :
  registry_wf reg → a ∈ dict_values reg → dict_get (address a) reg = Some a.
Proof.
  intros [Hnd Hwf] Hin. unfold dict_values in Hin.
  apply list_elem_of_fmap in Hin as ([k a'] & -> & Hin). simpl.
  destruct (Hwf _ _ Hin) as (<- & _). by apply dict_get_elem.
Qed.

Lemma elem_of_concat {A} (x : A) l L : x ∈ l → l ∈ L → x ∈ concat L.
Proof.
  intros Hx Hl. apply list_elem_of_In, in_concat. exists l.
  split; by apply list_elem_of_In.
Qed.

Lemma partition_Some (snapshot : list AccountToLoad) :
  ∃ groups,
    partition snapshot = Some groups ∧
    Forall (fun g => 0 < length g) groups ∧
    length groups = ceil_div (ceil_div (length snapshot) 99) 10 ∧
    concat (concat groups) = snapshot.
Proof.
  unfold partition, GET_MULTIPLE_ACCOUNTS_CHUNK_SIZE.
  rewrite chunks_chop by lia. rewrite chunks_chop by lia.
  eexists. split; [done|]. split_and!.
  - eapply Forall_impl; [apply (Forall_chop 10); lia|]. simpl. lia.
  - rewrite length_chop by lia. rewrite length_chop by lia. done.
  - rewrite concat_chop by lia. apply concat_chop; lia.
Qed.

Lemma partition_registered st groups :
  registry_wf (accounts_to_load st) →
  partition (dict_values (accounts_to_load st)) = Some groups →
  Forall (registered st) groups.
Proof.
  intros Hwf Hp.
  destruct (partition_Some (dict_values (accounts_to_load st)))
    as (groups' & Hp' & _ & _ & Hcat).
  rewrite Hp in Hp'. injection Hp' as <-.
  apply Forall_forall. intros g Hg batch a Hbatch Ha.
  apply dict_values_registered; [done|]. rewrite <- Hcat.
  eapply elem_of_concat; [exact Ha|]. by eapply elem_of_concat.
Qed.

Lemma gather_load_chunk_steps b64decode post groups st :
  loader_inv st →
  Forall (registered st) groups →
  rtc (step b64decode) st (gather (load_chunk b64decode post <$> groups) st).1.
Proof.
  intros Hinv Hall. revert st Hinv Hall.
  induction groups as [|g groups IH]; intros st Hinv Hall; [done|].
  apply Forall_cons in Hall as [Hg Hall].
  rewrite fmap_cons. cbn [gather].
  pose proof (step_load_chunk b64decode post g st Hg) as Hstep.
  destruct (step_sound _ _ _ Hstep Hinv) as (Hinv1 & _ & _).
  destruct (load_chunk_advances b64decode post g st
              (registered_wf _ _ (proj1 Hinv) Hg)) as (Hacc & _).
  destruct (load_chunk b64decode post g st) as [st1 o1]. simpl in *.
  assert (Hall1 : Forall (registered st1) groups).
  { eapply Forall_impl; [exact Hall|]. unfold registered. by rewrite Hacc. }
  specialize (IH st1 Hinv1 Hall1).
  destruct (gather _ st1) as [st2 o2]. simpl in *.
  by eapply rtc_l.
Qed.

Lemma load_cycle_steps b64decode post st :
  loader_inv st → rtc (step b64decode) st (load_cycle b64decode post st).1.
Proof.
  intros Hinv. unfold load_cycle.
  destruct (partition _) as [groups|] eqn:Hp; [|done].
  apply gather_load_chunk_steps; [done|].
  by apply partition_registered; [apply Hinv|].
Qed.

Lemma load_steps b64decode posts st :
  loader_inv st → rtc (step b64decode) st (load b64decode posts st).1.
Proof.
  revert st. induction posts as [|post posts IH]; intros st Hinv; [done|].
  cbn [load]. pose proof (load_cycle_steps b64decode post st Hinv) as Hcycle.
  destruct (load_cycle b64decode post st) as [st1 [|e]]; simpl in *; [|done].
  etrans; [exact Hcycle|]. apply IH.
  by destruct (steps_sound _ _ _ Hinv Hcycle).
Qed.

Lemma watching_A_reachable b64decode : reachable b64decode watching_A.
Proof.
  exists "confirmed", 1%Z. apply rtc_once.
  apply (step_add_account b64decode key_A 1 fresh).
Qed.





Lemma background_task_created_once_witness :
  reachable b64decode_padded watching_A ∧
  tasks_created watching_A ≤ 1 ∧
  tasks_created (add_account key_B 2 watching_A).2 = 1.
Proof.
  split; [apply watching_A_reachable|].
  destruct (background_task_created_once b64decode_padded watching_A
              (watching_A_reachable _)) as (Hle & _ & Hadd & _).
  split; [exact Hle|].
  destruct (Hadd key_B 2) as (_ & Hkeep & _).
  destruct Hkeep as [-> _]; [discriminate | reflexivity].
Defined.

(** ** Failures *)




Lemma same_calls_trans st1 st2 st3 :
  same_calls st1 st2 → same_calls st2 st3 → same_calls st1 st3.
Proof.
  intros (tr2 & -> & H2) (tr3 & -> & H3). exists tr3. split; [done|].
  simpl in H3. congruence.
Qed.






(** ** How a cycle can end *)









(** * Further properties *)

(** ** [chunks] for any size *)

Lemma chop_lookup {A} size fuel (l : list A) i c :
  chop fuel size l !! i = Some c → c = take size (drop (i * size) l).
Proof.
  revert l i. induction fuel as [|fuel IH]; intros l i; [done|].
  destruct l as [|x l]; [done|]. cbn [chop].
  destruct i as [|i].
  - simpl. by intros [= <-].
  - intros Hc. apply IH in Hc. rewrite drop_drop in Hc.
    by replace (S i * size) with (size + i * size) by lia.
Qed.

(** X1: for a positive size, [chunks] cuts the array into ceil(len/size)
    consecutive pieces: the i-th piece is [array[i*size : (i+1)*size]], the
    pieces joined give the array back, none is empty, and all but the last
    have exactly [size] items. *)
Theorem chunks_are_consecutive_slices {A} (array : list A) size :
  0 < size →
  ∃ cs,
    chunks array size = Some cs ∧
    concat cs = array ∧
    length cs = ceil_div (length array) size ∧
    ∀ i c, cs !! i = Some c →
      c = take size (drop (i * size) array) ∧
      0 < length c ≤ size ∧
      (S i < length cs → length c = size).
Proof.
  intros Hsize. exists (chop (length array) size array).
  pose proof (length_chop size (length array) Hsize array (le_n _)) as Hlen.
  split_and!.
  - by apply chunks_chop.
  - by apply concat_chop.
  - done.
  - intros i c Hc. pose proof (chop_lookup _ _ _ _ _ Hc) as ->. split_and!.
    + done.
    + apply list_elem_of_lookup_2 in Hc.
      pose proof (Forall_chop size (length array) array Hsize) as Hall.
      rewrite Forall_forall in Hall. apply (Hall _ Hc).
    + apply list_elem_of_lookup_2 in Hc.
      pose proof (Forall_chop size (length array) array Hsize) as Hall.
      rewrite Forall_forall in Hall. apply (Hall _ Hc).
    + rewrite Hlen. intros Hlast. rewrite length_take, length_drop.
      destruct (decide (length array ≤ S i * size)) as [Hle|Hgt]; [|lia].
      pose proof (proj2 (ceil_div_least (length array) size Hsize) (S i) Hle).
      lia.
Qed.

Lemma chunks_are_consecutive_slices_witness :
  0 < 3 ∧
  ∃ cs, chunks [1; 2; 3; 4; 5; 6; 7] 3 = Some cs ∧
        concat cs = [1; 2; 3; 4; 5; 6; 7] ∧ length cs = 3.
Proof.
  split; [lia|].
  destruct (chunks_are_consecutive_slices [1; 2; 3; 4; 5; 6; 7] 3 ltac:(lia))
    as (cs & Hcs & Hcat & Hlen & _).
  exists cs. split_and!; [exact Hcs | exact Hcat | exact Hlen].
Defined.

(** ** What reconciliation keeps, in general *)

Section preserves.
Variable b64decode : string -> option bytes.
Variable P : BulkAccountLoader → Prop.
Variable Q : AccountToLoad → Prop.
Hypothesis P_printed : ∀ line st, P st → P (emit [Printed line] st).
Hypothesis P_account :
  ∀ s a value st, Q a → P st → P (load_account b64decode s a value st).1.1.

Lemma load_accounts_preserves s chunk_accounts value st :
  Forall Q chunk_accounts → P st →
  P (load_accounts b64decode s chunk_accounts value st).1.
Proof.
  intros Hall. revert value st.
  induction Hall as [|a rest Ha _ IH]; intros value st HP; [done|].
  cbn [load_accounts]. pose proof (P_account s a value st Ha HP) as Hone.
  destruct (load_account b64decode s a value st) as [[st1 value1] [|e]];
    simpl in Hone; [by apply IH | done].
Qed.

Lemma load_results_preserves pairs st :
  Forall (fun p => Forall Q p.2) pairs → P st →
  P (load_results b64decode pairs st).1.
Proof.
  intros Hall. revert st.
  induction Hall as [|[r accounts] rest Hp _ IH]; intros st HP; [done|].
  cbn [load_results]. destruct r as [result|message].
  - pose proof (load_accounts_preserves (jsonrpcclient.context_slot result)
      accounts (jsonrpcclient.value result) st Hp HP) as Hone.
    destruct (load_accounts _ _ _ _ _) as [st1 [|e]]; simpl in Hone;
      [by apply IH | done].
  - apply IH. by apply P_printed.
Qed.

Lemma load_chunk_preserves post chunk st :
  Forall (Forall Q) chunk → P st → P (load_chunk b64decode post chunk st).1.
Proof.
  intros Hall HP. unfold load_chunk. destruct (decide _); [done|].
  destruct (post _) as [parsed_resp|]; [|done].
  apply load_results_preserves; [|done]. by apply Forall_zip_snd.
Qed.

Lemma gather_preserves post groups st :
  Forall (Forall (Forall Q)) groups → P st →
  P (gather (load_chunk b64decode post <$> groups) st).1.
Proof.
  intros Hall. revert st.
  induction Hall as [|g groups Hg _ IH]; intros st HP; [done|].
  rewrite fmap_cons. cbn [gather].
  pose proof (load_chunk_preserves post g st Hg HP) as Hone.
  destruct (load_chunk b64decode post g st) as [st1 o1]. simpl in Hone.
  specialize (IH st1 Hone). by destruct (gather _ st1).
Qed.
End preserves.

Lemma Forall3_True {A} (groups : list (list (list A))) :
  Forall (Forall (Forall (fun _ => True))) groups.
Proof.
  apply Forall_forall. intros g _. apply Forall_forall. intros b _.
  by apply Forall_forall.
Qed.

(** What holds before a run of the loop and is kept by every printed line
    and every reconciled account holds after it. *)
Lemma load_preserves b64decode (P : BulkAccountLoader → Prop) :
  (∀ line st, P st → P (emit [Printed line] st)) →
  (∀ s a value st, P st → P (load_account b64decode s a value st).1.1) →
  ∀ posts st, P st → P (load b64decode posts st).1.
Proof.
  intros Hprinted Haccount posts.
  induction posts as [|post posts IH]; intros st HP; [done|].
  cbn [load].
  assert (Hcycle : P (load_cycle b64decode post st).1).
  { unfold load_cycle. destruct (partition _) as [groups|]; [|done].
    apply (gather_preserves b64decode P (fun _ => True)); auto using Forall3_True. }
  destruct (load_cycle b64decode post st) as [st1 [|e]]; simpl in *;
    [by apply IH | done].
Qed.

Lemma only_reconciled_refl st : only_reconciled st st.
Proof. split_and!; try done. apply cache_le_refl. Qed.

Lemma load_account_only_reconciled b64decode st0 s a value st :
  only_reconciled st0 st →
  only_reconciled st0 (load_account b64decode s a value st).1.1.
Proof.
  intros Hrec.
  destruct (load_account_frame b64decode s a value st)
    as [-> | (Hfresh & new_buffer & ->)]; [done|].
  destruct Hrec as (? & ? & ? & ? & ? & ? & ? & Hpre & Hle).
  split_and!; try done.
  - simpl. etrans; [exact Hpre|]. by apply prefix_app_r.
  - eapply cache_le_trans; [exact Hle|]. intros addr old Hold. simpl.
    destruct (decide (address a = addr)) as [<-|Hne].
    + rewrite lookup_insert_eq. eexists. split; [done|]. simpl.
      pose proof (proj1 (is_stale_false_iff _ _) Hfresh old Hold). lia.
    + rewrite lookup_insert_ne by done. exists old. split; [done | lia].
Qed.

Lemma printed_only_reconciled st0 line st :
  only_reconciled st0 st → only_reconciled st0 (emit [Printed line] st).
Proof.
  intros (? & ? & ? & ? & ? & ? & ? & Hpre & Hle). split_and!; try done.
  simpl. etrans; [exact Hpre|]. by apply prefix_app_r.
Qed.

Lemma load_chunk_only_reconciled b64decode post chunk st :
  only_reconciled st (load_chunk b64decode post chunk st).1.
Proof.
  apply (load_chunk_preserves b64decode (only_reconciled st) (fun _ => True)).
  - intros. by apply printed_only_reconciled.
  - intros. by apply load_account_only_reconciled.
  - apply Forall_forall. intros b _. by apply Forall_forall.
  - apply only_reconciled_refl.
Qed.

(** X2: however long the polling loop runs and however the connection
    answers, it leaves the registry, the callback id counter, the task and
    the settings of the loader alone; the trace it started from is a prefix
    of the trace it leaves, and no address leaves the cache or goes back to
    an older slot. *)
Theorem polling_only_reconciles b64decode posts st :
  commitment (load b64decode posts st).1 = commitment st ∧
  frequency (load b64decode posts st).1 = frequency st ∧
  task (load b64decode posts st).1 = task st ∧
  callback_id (load b64decode posts st).1 = callback_id st ∧
  accounts_to_load (load b64decode posts st).1 = accounts_to_load st ∧
  tasks_created (load b64decode posts st).1 = tasks_created st ∧
  tasks_cancelled (load b64decode posts st).1 = tasks_cancelled st ∧
  trace st `prefix_of` trace (load b64decode posts st).1 ∧
  (∀ addr old, buffer_and_slot_map st !! addr = Some old →
     ∃ new, buffer_and_slot_map (load b64decode posts st).1 !! addr = Some new ∧
            (slot old ≤ slot new)%Z).
Proof.
  apply (load_preserves b64decode (only_reconciled st)).
  - intros. by apply printed_only_reconciled.
  - intros. by apply load_account_only_reconciled.
  - apply only_reconciled_refl.
Qed.

(** X3: reconciling a group touches only the addresses of the group: for any
    other address the cache entry stays as it was and no callback is
    called. *)
Theorem reconciliation_is_local b64decode post chunk st addr :
  (∀ batch a, batch ∈ chunk → a ∈ batch → address a ≠ addr) →
  buffer_and_slot_map (load_chunk b64decode post chunk st).1 !! addr
  = buffer_and_slot_map st !! addr ∧
  ∀ i cb b v,
    Called addr i cb b v ∈ trace (load_chunk b64decode post chunk st).1 →
    Called addr i cb b v ∈ trace st.
Proof.
  intros Hother.
  apply (load_chunk_preserves b64decode
    (fun st' => buffer_and_slot_map st' !! addr = buffer_and_slot_map st !! addr ∧
                ∀ i cb b v, Called addr i cb b v ∈ trace st' →
                            Called addr i cb b v ∈ trace st)
    (fun a => address a ≠ addr)).
  - intros line st' [Hc Htr]. split; [done|].
    intros i cb b v [Hin|Hin]%elem_of_app; [by apply Htr|].
    by apply list_elem_of_singleton in Hin.
  - intros s a value st' Hne [Hc Htr].
    destruct (load_account_frame b64decode s a value st')
      as [-> | (_ & new_buffer & ->)]; [done|].
    simpl. split; [by rewrite lookup_insert_ne|].
    intros i cb b v [Hin|Hin]%elem_of_app; [by apply Htr|].
    apply calls_inv in Hin as (id' & cb' & _ & [= ? _ _ _ _]). congruence.
  - apply Forall_forall. intros batch Hbatch. apply Forall_forall.
    intros a Ha. by eapply Hother.
  - done.
Qed.

Lemma reconciliation_is_local_witness :
  (∀ batch a, batch ∈ [[{| pubkey := key_B; callback := [(0%Z, 2)] |}]] →
              a ∈ batch → address a ≠ "A") ∧
  buffer_and_slot_map
    (load_chunk b64decode_padded (answer 9 [Some "eHl6"])
       [[{| pubkey := key_B; callback := [(0%Z, 2)] |}]] seen_A_at_5).1 !! "A"
  = buffer_and_slot_map seen_A_at_5 !! "A".
Proof.
  assert (H : ∀ batch a,
    batch ∈ [[{| pubkey := key_B; callback := [(0%Z, 2)] |}]] →
    a ∈ batch → address a ≠ "A").
  { intros batch a ->%list_elem_of_singleton ->%list_elem_of_singleton.
    discriminate. }
  split; [exact H|].
  exact (proj1 (reconciliation_is_local b64decode_padded (answer 9 [Some "eHl6"])
    [[{| pubkey := key_B; callback := [(0%Z, 2)] |}]] seen_A_at_5 "A" H)).
Defined.

(** ** The stages of a loader *)

Lemma add_account_task pk cb st :
  task (add_account pk cb st).2
  = (if decide (accounts_to_load st = []) then Some (tasks_created st)
     else task st) ∧
  tasks_cancelled (add_account pk cb st).2 = tasks_cancelled st ∧
  callback_id (add_account pk cb st).2 = callback_id st.
Proof.
  unfold add_account, dict_len.
  destruct (accounts_to_load st) as [|kv reg] eqn:Hreg.
  - simpl. done.
  - destruct (dict_get (str pk) (kv :: reg)); rewrite decide_False by done;
      simpl; done.
Qed.

Lemma step_stages b64decode st st' :
  step b64decode st st' →
  (idle st → idle st' ∨ running st') ∧
  (running st → running st' ∨ stopped st') ∧
  (stopped st → stopped st').
Proof.
  intros Hstep. destruct Hstep as [pk cb st|st|st|post chunk st Hreg].
  - destruct (add_account_fields pk cb st) as (_ & _ & Hacc & Hcreated).
    destruct (add_account_task pk cb st) as (Htask & Hcancelled & _).
    assert (Hne : accounts_to_load (add_account pk cb st).2 ≠ [])
      by (rewrite Hacc; apply dict_set_nonempty).
    split_and!.
    + intros (Ht & Hc & Hx & Hreg). right.
      rewrite decide_True in Htask by done.
      rewrite decide_True in Hcreated by done.
      split_and!; [by rewrite Htask, Hc | lia | congruence | done].
    + intros (Ht & Hc & Hx & Hreg). left.
      rewrite decide_False in Htask by done.
      rewrite decide_False in Hcreated by done.
      split_and!; [congruence | lia | congruence | done].
    + intros (Ht & Hc & Hx & Hreg).
      rewrite decide_False in Htask by done.
      rewrite decide_False in Hcreated by done.
      split_and!; [congruence | lia | congruence | done].
  - split_and!; [by left | by left | done].
  - unfold unsubscribe. split_and!.
    + intros Hidle. left. destruct Hidle as (Ht & ?). by rewrite Ht.
    + intros (Ht & Hc & Hx & Hreg). right. rewrite Ht.
      split_and!; simpl; try done. by rewrite Hx.
    + intros Hstopped. destruct Hstopped as (Ht & ?). by rewrite Ht.
  - destruct (load_chunk_only_reconciled b64decode post chunk st)
      as (_ & _ & Ht & _ & Hacc & Hc & Hx & _).
    unfold idle, running, stopped. rewrite Ht, Hacc, Hc, Hx.
    split_and!; [by left | by left | done].
Qed.

Lemma reachable_stages b64decode st :
  reachable b64decode st → idle st ∨ running st ∨ stopped st.
Proof.
  intros (c & f & Hrtc). revert st Hrtc.
  apply (rtc_ind_r (fun st => idle st ∨ running st ∨ stopped st)).
  - by left.
  - intros st1 st2 _ Hstep IH.
    destruct (step_stages _ _ _ Hstep) as (Hi & Hr & Hs).
    destruct IH as [?|[?|?]]; [destruct Hi | destruct Hr | ]; auto.
Qed.

(** X4: a loader is always in one of three stages: idle (nothing registered,
    no task), running (the first task held, never cancelled) or stopped (the
    first task cancelled, none held). Idle is left only for running, running
    only for stopped, and stopped never: once [unsubscribe] has stopped a
    loader no registration brings a task back. *)
Theorem loader_stages b64decode st :
  reachable b64decode st →
  (idle st ∨ running st ∨ stopped st) ∧
  (∀ st', step b64decode st st' →
     (idle st → idle st' ∨ running st') ∧
     (running st → running st' ∨ stopped st') ∧
     (stopped st → stopped st')) ∧
  (accounts_to_load st ≠ [] →
   ∀ st', rtc (step b64decode) (unsubscribe st) st' →
     task st' = None ∧ tasks_created st' = 1).
Proof.
  intros Hreach. split_and!.
  - by eapply reachable_stages.
  - intros st' Hstep. by eapply step_stages.
  - intros Hne st' Hrtc.
    assert (Hstopped : stopped (unsubscribe st)).
    { destruct (step_stages _ _ _ (step_unsubscribe b64decode st)) as (_ & Hr & Hs).
      destruct (reachable_stages _ _ Hreach) as [Hi|[Hrun|Hst]].
      - by destruct Hi as (_ & _ & _ & ?).
      - destruct (Hr Hrun) as [Hrun'|?]; [|done].
        unfold unsubscribe in Hrun'. destruct Hrun as (Ht & _).
        rewrite Ht in Hrun'. by destruct Hrun' as ([=] & _).
      - by apply Hs. }
    enough (stopped st') as (? & ? & _) by done.
    revert st' Hrtc. apply (rtc_ind_r (fun st' => stopped st')); [done|].
    intros st1 st2 _ Hstep IH. by apply (step_stages _ _ _ Hstep).
Qed.

Lemma loader_stages_witness :
  reachable b64decode_padded watching_A ∧
  running watching_A ∧
  task (add_account key_B 2 (unsubscribe watching_A)).2 = None.
Proof.
  split; [apply watching_A_reachable|].
  destruct (loader_stages b64decode_padded watching_A (watching_A_reachable _))
    as (_ & _ & Hstop).
  split; [by repeat split|].
  refine (proj1 (Hstop _ _ (rtc_once _ _
    (step_add_account b64decode_padded key_B 2 (unsubscribe watching_A))))).
  discriminate.
Defined.

(** X5: with nothing registered a run of the loop sends nothing and changes
    nothing, whatever the connection would answer, and goes on looping. *)
Theorem load_of_empty_registry b64decode posts st :
  accounts_to_load st = [] → load b64decode posts st = (st, Looping).
Proof.
  intros Hempty. induction posts as [|post posts IH]; [done|].
  cbn [load]. unfold load_cycle. rewrite Hempty. simpl. exact IH.
Qed.

Lemma load_of_empty_registry_witness :
  accounts_to_load fresh = [] ∧
  load b64decode_padded [down; answer 5 [Some "YWJj"]] fresh = (fresh, Looping).
Proof.
  split; [reflexivity|].
  exact (load_of_empty_registry b64decode_padded
           [down; answer 5 [Some "YWJj"]] fresh eq_refl).
Defined.

(** ** Looking up what was registered *)

Section dict_lookup.
Context {K V : Type} `{!EqDecision K}.
Implicit Types (d : dict K V).

Lemma dict_get_set_eq k v d : dict_get k (dict_set k v d) = Some v.
Proof.
  induction d as [|[k' v'] d IH]; simpl.
  - by rewrite decide_True.
  - destruct (decide (k = k')) as [->|Hne]; simpl.
    + by rewrite decide_True.
    + by rewrite decide_False.
Qed.

Lemma dict_get_set_ne k k' v d :
  k ≠ k' → dict_get k' (dict_set k v d) = dict_get k' d.
Proof.
  intros Hne. induction d as [|[k0 v0] d IH]; simpl.
  - by rewrite decide_False.
  - destruct (decide (k = k0)) as [->|Hne0]; simpl.
    + by rewrite !decide_False.
    + destruct (decide (k' = k0)); [done | exact IH].
Qed.

Lemma dict_set_lookup_ne k v d i k' v' :
  k ≠ k' → d !! i = Some (k', v') → dict_set k v d !! i = Some (k', v').
Proof.
  intros Hne. revert i. induction d as [|[k0 v0] d IH]; intros i; [done|].
  simpl. destruct i as [|i]; simpl.
  - intros [= -> ->]. by rewrite decide_False.
  - intros Hi. destruct (decide (k = k0)); simpl; [done | by apply IH].
Qed.
End dict_lookup.

(** X6: after [add_account] the registry holds, under [str(pubkey)], an
    entry in which the returned id leads to the callback just given, the
    other ids of that address lead where they led before, and every other
    address reads as before; the cache, the trace and the id counter are
    untouched. *)
Theorem add_account_registers pk cb st :
  (∃ a,
     dict_get (str pk) (accounts_to_load (add_account pk cb st).2) = Some a ∧
     dict_get (add_account pk cb st).1 (callback a) = Some cb ∧
     pubkey a = match dict_get (str pk) (accounts_to_load st) with
                | Some existing => pubkey existing
                | None => pk
                end ∧
     ∀ id, id ≠ (add_account pk cb st).1 →
       dict_get id (callback a)
       = match dict_get (str pk) (accounts_to_load st) with
         | Some existing => dict_get id (callback existing)
         | None => None
         end) ∧
  (∀ k, k ≠ str pk →
     dict_get k (accounts_to_load (add_account pk cb st).2)
     = dict_get k (accounts_to_load st)) ∧
  buffer_and_slot_map (add_account pk cb st).2 = buffer_and_slot_map st ∧
  trace (add_account pk cb st).2 = trace st ∧
  callback_id (add_account pk cb st).2 = callback_id st.
Proof.
  destruct (add_account_fields pk cb st) as (Htr & Hcache & Hacc & _).
  destruct (add_account_task pk cb st) as (_ & _ & Hid).
  assert (Hret : (add_account pk cb st).1 = callback_id st) by done.
  split_and!; try done.
  - rewrite Hacc, Hret. eexists. split; [apply dict_get_set_eq|].
    destruct (dict_get (str pk) (accounts_to_load st)) as [existing|]; simpl.
    + split_and!; [apply dict_get_set_eq | done |].
      intros id Hne. by apply dict_get_set_ne.
    + split_and!; [by rewrite decide_True | done |].
      intros id Hne. by rewrite decide_False.
  - intros k Hne. rewrite Hacc. by apply dict_get_set_ne.
Qed.

(** X7: [add_account] never reorders the registry: the keys it had remain,
    in the same order, a new address going to the end; every other address
    keeps its place and its entry; and the registry grows by one exactly
    when the address is new. *)
Theorem add_account_keeps_order pk cb st :
  dict_keys (accounts_to_load (add_account pk cb st).2)
  = match dict_get (str pk) (accounts_to_load st) with
    | Some _ => dict_keys (accounts_to_load st)
    | None => dict_keys (accounts_to_load st) ++ [str pk]
    end ∧
  dict_keys (accounts_to_load st)
    `prefix_of` dict_keys (accounts_to_load (add_account pk cb st).2) ∧
  (∀ i k a, k ≠ str pk → accounts_to_load st !! i = Some (k, a) →
     accounts_to_load (add_account pk cb st).2 !! i = Some (k, a)) ∧
  dict_len (accounts_to_load (add_account pk cb st).2)
  = match dict_get (str pk) (accounts_to_load st) with
    | Some _ => dict_len (accounts_to_load st)
    | None => S (dict_len (accounts_to_load st))
    end.
Proof.
  destruct (add_account_fields pk cb st) as (_ & _ & Hacc & _).
  rewrite Hacc. pose proof (dict_keys_set (str pk)
    (match dict_get (str pk) (accounts_to_load st) with
     | Some existing => set_callback (callback_id st) cb existing
     | None => {| pubkey := pk; callback := [(callback_id st, cb)] |}
     end) (accounts_to_load st)) as Hkeys.
  split_and!.
  - rewrite Hkeys. by destruct (dict_get _ _).
  - rewrite Hkeys. destruct (dict_get _ _); [done | by apply prefix_app_r].
  - intros i k a Hne Hi. by apply dict_set_lookup_ne.
  - apply (f_equal length) in Hkeys. unfold dict_keys, dict_len in *.
    rewrite length_fmap in Hkeys. rewrite Hkeys.
    destruct (dict_get _ _); rewrite ?length_app, length_fmap; simpl; lia.
Qed.

(** ** Callback ids *)

Lemma step_ids b64decode st st' :
  step b64decode st st' →
  (callback_id st ≤ callback_id st')%Z ∧
  ((0 ≤ callback_id st)%Z ∧ ids_bounded st →
   (0 ≤ callback_id st')%Z ∧ ids_bounded st').
Proof.
  intros Hstep. destruct Hstep as [pk cb st|st|st|post chunk st Hreg].
  - destruct (add_account_fields pk cb st) as (_ & _ & Hacc & _).
    destruct (add_account_task pk cb st) as (_ & _ & Hid).
    split; [lia|]. intros [H0 Hb]. split; [lia|].
    intros k a id cb' Hin Hcb. rewrite Hid. rewrite Hacc in Hin.
    apply dict_set_elem in Hin as [[= -> ->]|Hin]; [|by eapply Hb].
    destruct (dict_get (str pk) (accounts_to_load st)) as [existing|] eqn:Hget.
    + apply dict_set_elem in Hcb as [[= -> ->]|Hcb]; [lia|].
      apply dict_get_Some_elem in Hget. by eapply Hb.
    + apply list_elem_of_singleton in Hcb as [= -> ->]. lia.
  - simpl. split; [lia|]. intros [H0 Hb]. split; [lia|].
    intros k a id cb Hin Hcb. specialize (Hb k a id cb Hin Hcb). simpl. lia.
  - assert (callback_id (unsubscribe st) = callback_id st ∧
            accounts_to_load (unsubscribe st) = accounts_to_load st) as [Hid Hacc]
      by (unfold unsubscribe; by destruct (task st)).
    unfold ids_bounded. rewrite Hid, Hacc. split; [lia | done].
  - destruct (load_chunk_only_reconciled b64decode post chunk st)
      as (_ & _ & _ & Hid & Hacc & _).
    unfold ids_bounded. rewrite Hid, Hacc. split; [lia | done].
Qed.

(** X8: the id counter never goes down and no callback is ever stored under
    an id beyond it, so the id [get_callback_id] returns is one no callback
    of any address is stored under. *)
Theorem get_callback_id_is_unused b64decode st :
  reachable b64decode st →
  (0 ≤ callback_id st)%Z ∧
  (∀ k a id cb, (k, a) ∈ accounts_to_load st → (id, cb) ∈ callback a →
     (0 ≤ id ≤ callback_id st)%Z ∧ id ≠ (get_callback_id st).1) ∧
  (get_callback_id st).1 = callback_id (get_callback_id st).2 ∧
  (∀ st', rtc (step b64decode) st st' → (callback_id st ≤ callback_id st')%Z).
Proof.
  intros (c & f & Hrtc).
  assert (Hinv : (0 ≤ callback_id st)%Z ∧ ids_bounded st).
  { revert st Hrtc.
    apply (rtc_ind_r (fun st => (0 ≤ callback_id st)%Z ∧ ids_bounded st)).
    - split; [simpl; lia|]. by intros k a id cb ?%elem_of_nil.
    - intros st1 st2 _ Hstep IH. by apply (step_ids _ _ _ Hstep). }
  destruct Hinv as [H0 Hb]. split_and!; try done.
  - intros k a id cb Hin Hcb. specialize (Hb k a id cb Hin Hcb).
    simpl. split; lia.
  - intros st'. apply (rtc_ind_r (fun st' => (callback_id st ≤ callback_id st')%Z));
      [lia|].
    intros st1 st2 _ Hstep IH. destruct (step_ids _ _ _ Hstep). lia.
Qed.

Lemma get_callback_id_is_unused_witness :
  reachable b64decode_padded watching_A ∧
  (get_callback_id watching_A).1 = 1%Z ∧
  (0 ≤ callback_id watching_A)%Z.
Proof.
  split; [apply watching_A_reachable|]. split; [reflexivity|].
  exact (proj1 (get_callback_id_is_unused b64decode_padded watching_A
                  (watching_A_reachable _))).
Defined.

(** ** The cache and the calls *)

Lemma load_chunk_cache_delivered b64decode post chunk st :
  Forall (Forall (fun a => callback a ≠ [])) chunk →
  cache_delivered st →
  cache_delivered (load_chunk b64decode post chunk st).1.
Proof.
  apply (load_chunk_preserves b64decode cache_delivered (fun a => callback a ≠ [])).
  - intros line st' Hdel addr e He. destruct (Hdel addr e He) as (i & cb & Hin).
    exists i, cb. simpl. apply elem_of_app. by left.
  - intros s a value st' Hne Hdel.
    destruct (load_account_frame b64decode s a value st')
      as [-> | (_ & new_buffer & ->)]; [done|].
    intros addr e. simpl. destruct (decide (address a = addr)) as [<-|Hother].
    + rewrite lookup_insert_eq. intros [= <-]. simpl.
      unfold calls. destruct (callback a) as [|[id cb] cbs]; [done|].
      exists id, cb. apply elem_of_app. right. rewrite fmap_cons.
      apply list_elem_of_here.
    + rewrite lookup_insert_ne by done. intros He.
      destruct (Hdel addr e He) as (i & cb & Hin).
      exists i, cb. apply elem_of_app. by left.
Qed.

Lemma reachable_cache_delivered b64decode st :
  reachable b64decode st → cache_delivered st.
Proof.
  intros (c & f & Hrtc). revert st Hrtc.
  apply (rtc_ind_r (fun st => cache_delivered st)).
  - intros addr e He. simpl in He. by rewrite lookup_empty in He.
  - intros st1 st2 Hrtc Hstep IH.
    assert (Hinv : loader_inv st1) by (apply (reachable_inv b64decode); by exists c, f).
    destruct Hstep as [pk cb st|st|st|post chunk st Hreg].
    + destruct (add_account_fields pk cb st) as (Htr & Hcache & _).
      unfold cache_delivered. by rewrite Htr, Hcache.
    + done.
    + unfold unsubscribe. by destruct (task st).
    + apply load_chunk_cache_delivered; [|done].
      destruct Hinv as [[_ Hwf] _]. apply Forall_forall. intros batch Hbatch.
      apply Forall_forall. intros a Ha.
      specialize (Hreg batch a Hbatch Ha).
      by apply dict_get_Some_elem, Hwf in Hreg as (_ & _ & ?).
Qed.

(** X9: what the cache holds for an address is what the callbacks of that
    address were last told: the cached buffer and slot were handed to a
    callback of the address, no call for the address carried a later
    version, and an address without a cache entry has had no call at all. *)
Theorem cache_is_what_was_delivered b64decode st addr :
  reachable b64decode st →
  (∀ e, buffer_and_slot_map st !! addr = Some e →
     (∃ i cb, Called addr i cb (buffer e) (slot e) ∈ trace st) ∧
     ∀ i cb b v, Called addr i cb b v ∈ trace st → (v ≤ slot e)%Z) ∧
  (buffer_and_slot_map st !! addr = None →
   ∀ i cb b v, Called addr i cb b v ∉ trace st).
Proof.
  intros Hreach.
  pose proof (reachable_cache_delivered _ _ Hreach) as Hcd.
  destruct (reachable_inv _ _ Hreach) as (_ & Hdel & _).
  split.
  - intros e He. split; [by apply Hcd|].
    intros i cb b v Hin. destruct (Hdel _ _ _ _ _ Hin) as (old & Hold & Hle).
    congruence.
  - intros Hnone i cb b v Hin.
    destruct (Hdel _ _ _ _ _ Hin) as (old & Hold & _). congruence.
Qed.

Lemma cache_is_what_was_delivered_witness :
  reachable b64decode_padded seen_A_at_5 ∧
  ∃ i cb, Called "A" i cb (Some "abc") 5 ∈ trace seen_A_at_5.
Proof.
  assert (Hreach : reachable b64decode_padded seen_A_at_5).
  { eapply reachable_later; [apply watching_A_reachable|].
    apply load_steps, reachable_inv with b64decode_padded, watching_A_reachable. }
  split; [exact Hreach|].
  exact (proj1 (proj1 (cache_is_what_was_delivered b64decode_padded seen_A_at_5
    "A" Hreach) {| slot := 5; buffer := Some "abc" |} eq_refl)).
Defined.

(** ** The requests of a cycle *)

Lemma partition_sizes (snapshot : list AccountToLoad) :
  ∃ groups,
    partition snapshot = Some groups ∧
    concat (concat groups) = snapshot ∧
    Forall (fun g => length g ≤ 10 ∧ Forall (fun b => 0 < length b ≤ 99) g)
      groups.
Proof.
  unfold partition, GET_MULTIPLE_ACCOUNTS_CHUNK_SIZE.
  rewrite chunks_chop by lia. rewrite chunks_chop by lia.
  set (sub_batches := chop (length snapshot) 99 snapshot).
  assert (Hcat : concat (chop (length sub_batches) 10 sub_batches) = sub_batches)
    by (apply concat_chop; lia).
  eexists. split; [done|]. split.
  - rewrite Hcat. apply concat_chop; lia.
  - apply Forall_forall. intros g Hg. split.
    + pose proof (Forall_chop 10 (length sub_batches) sub_batches ltac:(lia)) as Hall.
      rewrite Forall_forall in Hall. specialize (Hall g Hg). simpl in Hall. lia.
    + apply Forall_forall. intros b Hb.
      assert (b ∈ sub_batches) as Hin
        by (rewrite <- Hcat; by eapply elem_of_concat).
      pose proof (Forall_chop 99 (length snapshot) snapshot ltac:(lia)) as Hall.
      rewrite Forall_forall in Hall. apply (Hall b Hin).
Qed.

Lemma rpc_requests_pubkeys (g : list (list AccountToLoad)) st :
  concat (jsonrpcclient.params_pubkeys <$> rpc_requests g st)
  = address <$> concat g.
Proof.
  unfold rpc_requests. induction g as [|b g IH]; [done|].
  rewrite !fmap_cons, !concat_cons, fmap_app. cbn [jsonrpcclient.params_pubkeys].
  by rewrite IH.
Qed.

Lemma registry_keys_addresses reg :
  registry_wf reg → address <$> dict_values reg = dict_keys reg.
Proof.
  intros [_ Hwf]. unfold dict_values, dict_keys.
  induction reg as [|[k a] reg IH]; [done|].
  rewrite !fmap_cons. cbn [fst snd].
  destruct (Hwf k a (list_elem_of_here _ _)) as (<- & _).
  f_equal. apply IH. intros k' a' Hin. apply Hwf. by apply list_elem_of_further.
Qed.

(** X10: in one cycle the loader asks for every registered address exactly
    once, in the order of registration: the public keys of all the requests
    of all the groups, joined, are the keys of the registry. No group has
    more than 10 requests and no request more than 99 keys or none; every
    request is a [getMultipleAccounts] in base64 at the commitment of the
    loader. *)
Theorem cycle_requests_every_address b64decode st :
  reachable b64decode st →
  ∃ groups,
    partition (dict_values (accounts_to_load st)) = Some groups ∧
    concat (jsonrpcclient.params_pubkeys
              <$> concat ((fun g => rpc_requests g st) <$> groups))
    = dict_keys (accounts_to_load st) ∧
    Forall (fun g =>
      length (rpc_requests g st) ≤ 10 ∧
      Forall (fun r =>
        jsonrpcclient.method r = "getMultipleAccounts" ∧
        0 < length (jsonrpcclient.params_pubkeys r) ≤ 99 ∧
        jsonrpcclient.params_encoding r = "base64" ∧
        jsonrpcclient.params_commitment r = commitment st)
        (rpc_requests g st)) groups.
Proof.
  intros Hreach. destruct (reachable_inv _ _ Hreach) as (Hwf & _).
  destruct (partition_sizes (dict_values (accounts_to_load st)))
    as (groups & Hp & Hcat & Hsizes).
  exists groups. split; [done|]. split.
  - rewrite <- (registry_keys_addresses _ Hwf), <- Hcat.
    clear. induction groups as [|g groups IH]; [done|].
    rewrite fmap_cons, !concat_cons.
    rewrite !fmap_app, !concat_app, !fmap_app.
    by rewrite IH, rpc_requests_pubkeys.
  - eapply Forall_impl; [exact Hsizes|]. intros g [Hlen Hall]. split.
    + unfold rpc_requests. by rewrite length_fmap.
    + unfold rpc_requests. apply Forall_fmap.
      eapply Forall_impl; [exact Hall|]. intros b Hb. simpl.
      rewrite length_fmap. done.
Qed.

Lemma cycle_requests_every_address_witness :
  reachable b64decode_padded watching_A ∧
  ∃ groups,
    partition (dict_values (accounts_to_load watching_A)) = Some groups ∧
    concat (jsonrpcclient.params_pubkeys
              <$> concat ((fun g => rpc_requests g watching_A) <$> groups))
    = ["A"].
Proof.
  split; [apply watching_A_reachable|].
  destruct (cycle_requests_every_address b64decode_padded watching_A
              (watching_A_reachable _)) as (groups & Hp & Hkeys & _).
  exists groups. split; [exact Hp | exact Hkeys].
Defined.

(** ** A sub-batch with no stale account *)

Lemma pop_0_entry_for (value : list (option jsonrpcclient.Account)) :
  (pop_0 value).1 = entry_for value 0 ∧
  ∀ i, entry_for (pop_0 value).2 i = entry_for value (S i).
Proof. by destruct value. Qed.

Lemma load_accounts_fresh b64decode s accounts value st :
  NoDup (address <$> accounts) →
  Forall (fun a => is_stale s (buffer_and_slot_map st !! address a) = false)
    accounts →
  (∀ i, is_Some (new_buffer_of b64decode (entry_for value i))) →
  (load_accounts b64decode s accounts value st).2 = Returned ∧
  ∃ evs,
    trace (load_accounts b64decode s accounts value st).1 = trace st ++ evs ∧
    (∀ e, e ∈ evs →
       ∃ a id cb b, a ∈ accounts ∧ e = Called (address a) id cb b s) ∧
    (∀ addr, addr ∉ address <$> accounts →
       buffer_and_slot_map (load_accounts b64decode s accounts value st).1 !! addr
       = buffer_and_slot_map st !! addr) ∧
    ∀ i a new_buffer,
      accounts !! i = Some a →
      new_buffer_of b64decode (entry_for value i) = Some new_buffer →
      (∃ e, buffer_and_slot_map
              (load_accounts b64decode s accounts value st).1 !! address a
            = Some e ∧ buffer e = new_buffer) ∧
      ∀ id cb b v, Called (address a) id cb b v ∈ evs → b = new_buffer ∧ v = s.
Proof.
  revert value st. induction accounts as [|a rest IH]; intros value st Hnd Hfresh Hdec.
  { split; [done|]. exists []. split_and!; try done.
    - by rewrite app_nil_r.
    - by intros e ?%elem_of_nil. }
  rewrite fmap_cons in Hnd. apply NoDup_cons in Hnd as [Hnotin Hnd].
  apply Forall_cons in Hfresh as [Ha Hrest].
  destruct (pop_0_entry_for value) as [Hhead Htail].
  destruct (Hdec 0) as [nb0 Hnb0].
  assert (Hd : new_buffer_of b64decode (pop_0 value).1 = Some nb0)
    by (by rewrite Hhead).
  (* the first account *)
  assert (Hone : ∃ st1 evs1,
    load_account b64decode s a value st = (st1, (pop_0 value).2, Returned) ∧
    trace st1 = trace st ++ evs1 ∧
    (∀ e, e ∈ evs1 → ∃ id cb, e = Called (address a) id cb nb0 s) ∧
    (∀ addr, addr ≠ address a →
       buffer_and_slot_map st1 !! addr = buffer_and_slot_map st !! addr) ∧
    ∃ e, buffer_and_slot_map st1 !! address a = Some e ∧ buffer e = nb0).
  { destruct (is_changed nb0 (buffer_and_slot_map st !! address a)) eqn:Hc.
    - eexists _, (calls a nb0 s).
      split; [exact (load_account_changed _ _ _ _ _ _ Ha Hd Hc)|].
      split_and!; simpl; try done.
      + intros e (id & cb & _ & ->)%calls_inv. eauto.
      + intros addr Hne. by rewrite lookup_insert_ne.
      + rewrite lookup_insert_eq. by eexists.
    - exists st, [].
      split; [exact (load_account_unchanged _ _ _ _ _ _ Ha Hd Hc)|].
      split_and!; try done.
      + by rewrite app_nil_r.
      + by intros e ?%elem_of_nil.
      + destruct (buffer_and_slot_map st !! address a) as [old|]; [|done].
        simpl in Hc. apply bool_decide_eq_false in Hc.
        exists old. split; [done|].
        destruct (decide (nb0 = buffer old)) as [->|Hne]; [done|].
        by destruct Hc. }
  destruct Hone as (st1 & evs1 & Hstep & Htr1 & Hevs1 & Hcache1 & e0 & He0 & Hb0).
  cbn [load_accounts]. rewrite Hstep.
  assert (Hfresh1 :
    Forall (fun a' => is_stale s (buffer_and_slot_map st1 !! address a') = false)
      rest).
  { apply Forall_forall. intros a' Ha'. rewrite Forall_forall in Hrest.
    rewrite Hcache1; [by apply Hrest|]. intros Heq. apply Hnotin. rewrite <- Heq.
    by apply list_elem_of_fmap_2. }
  assert (Hdec1 : ∀ i, is_Some (new_buffer_of b64decode
                                  (entry_for (pop_0 value).2 i)))
    by (intros i; rewrite Htail; apply Hdec).
  destruct (IH (pop_0 value).2 st1 Hnd Hfresh1 Hdec1)
    as (Hout & evs2 & Htr2 & Hevs2 & Hcache2 & Hidx).
  split; [done|]. exists (evs1 ++ evs2). split_and!.
  - by rewrite Htr2, Htr1, app_assoc.
  - intros e [Hin|Hin]%elem_of_app.
    + destruct (Hevs1 e Hin) as (id & cb & ->).
      exists a, id, cb, nb0. split; [apply list_elem_of_here | done].
    + destruct (Hevs2 e Hin) as (a' & id & cb & b & Ha' & ->).
      exists a', id, cb, b. split; [by apply list_elem_of_further | done].
  - intros addr Hnot. rewrite fmap_cons in Hnot.
    apply not_elem_of_cons in Hnot as [Hne Hnot].
    rewrite Hcache2 by done. by apply Hcache1.
  - intros i a' new_buffer Hi Hnb. destruct i as [|i]; simpl in Hi.
    + injection Hi as <-. assert (new_buffer = nb0) as -> by congruence. split.
      * exists e0. split; [|done]. by rewrite Hcache2.
      * intros id cb b v [Hin|Hin]%elem_of_app.
        -- destruct (Hevs1 _ Hin) as (id' & cb' & [= _ _ -> ->]). done.
        -- destruct (Hevs2 _ Hin) as (a' & id' & cb' & b' & Ha' & [= Heq _ _ _ _]).
           exfalso. apply Hnotin. rewrite Heq. by apply list_elem_of_fmap_2.
    + rewrite <- Htail in Hnb. destruct (Hidx i a' new_buffer Hi Hnb) as [Hc Hev].
      split; [done|]. intros id cb b v [Hin|Hin]%elem_of_app; [|by eapply Hev].
      destruct (Hevs1 _ Hin) as (id' & cb' & [= Heq _ _ _ _]).
      exfalso. apply Hnotin. rewrite <- Heq.
      apply list_elem_of_fmap_2. by eapply list_elem_of_lookup_2.
Qed.

(** X11: when no account of a sub-batch is stale (as in the first cycle, or
    when the slot is beyond every cached one), the addresses are distinct and
    every payload decodes, the response is read in order: reconciling never
    raises, and for the account in place i the cache ends up holding the
    content of the i-th entry of the response, absent when the response has
    no i-th entry, and every call made for that address carries that content
    and the slot of the response. *)
Theorem fresh_sub_batch_is_read_in_order b64decode s accounts value st :
  NoDup (address <$> accounts) →
  Forall (fun a => is_stale s (buffer_and_slot_map st !! address a) = false)
    accounts →
  (∀ i, is_Some (new_buffer_of b64decode (entry_for value i))) →
  (load_accounts b64decode s accounts value st).2 = Returned ∧
  ∃ evs,
    trace (load_accounts b64decode s accounts value st).1 = trace st ++ evs ∧
    ∀ i a new_buffer,
      accounts !! i = Some a →
      new_buffer_of b64decode (entry_for value i) = Some new_buffer →
      (∃ e, buffer_and_slot_map
              (load_accounts b64decode s accounts value st).1 !! address a
            = Some e ∧ buffer e = new_buffer) ∧
      ∀ id cb b v, Called (address a) id cb b v ∈ evs → b = new_buffer ∧ v = s.
Proof.
  intros Hnd Hfresh Hdec.
  destruct (load_accounts_fresh b64decode s accounts value st Hnd Hfresh Hdec)
    as (Hout & evs & Htr & _ & _ & Hidx).
  split; [done|]. by exists evs.
Qed.

Lemma fresh_sub_batch_is_read_in_order_witness :
  NoDup (address <$> [{| pubkey := key_A; callback := [(0%Z, 1)] |};
                      {| pubkey := key_B; callback := [(0%Z, 2)] |}]) ∧
  (load_accounts b64decode_padded 5
     [{| pubkey := key_A; callback := [(0%Z, 1)] |};
      {| pubkey := key_B; callback := [(0%Z, 2)] |}]
     [Some {| jsonrpcclient.data_0 := "YQ==" |};
      Some {| jsonrpcclient.data_0 := "Yg==" |}] watching_A_B).2 = Returned.
Proof.
  assert (Hnd : NoDup (address <$> [{| pubkey := key_A; callback := [(0%Z, 1)] |};
                                    {| pubkey := key_B; callback := [(0%Z, 2)] |}])).
  { apply (bool_decide_unpack _). vm_compute. exact I. }
  split; [exact Hnd|].
  refine (proj1 (fresh_sub_batch_is_read_in_order b64decode_padded 5 _
    [Some {| jsonrpcclient.data_0 := "YQ==" |};
     Some {| jsonrpcclient.data_0 := "Yg==" |}] watching_A_B Hnd _ _)).
  - repeat constructor.
  - intros [|[|i]]; eexists; reflexivity.
Defined.

(** ** Answers of another length than the group *)

Lemma zip_take {A B} (l : list A) (k : list B) :
  zip l k = zip (take (length k) l) (take (length l) k).
Proof.
  revert k. induction l as [|x l IH]; intros [|y k]; simpl; try done.
  f_equal. apply IH.
Qed.

(** X12: results and sub-batches are paired in order up to the shorter of the
    two lists, without any check of the lengths: a result beyond the last
    sub-batch is dropped, and a sub-batch beyond the last result is left
    unreconciled, with no error. *)
Theorem answer_is_paired_up_to_the_shorter b64decode post chunk st parsed_resp :
  post (rpc_requests chunk st) = Some parsed_resp →
  load_chunk b64decode post chunk st
  = load_results b64decode
      (zip (take (length chunk) parsed_resp) (take (length parsed_resp) chunk))
      st.
Proof.
  intros Hpost. unfold load_chunk. rewrite Hpost, <- zip_take.
  destruct (decide (length chunk = 0)) as [Hlen|]; [|done].
  destruct chunk; [|done]. by destruct parsed_resp.
Qed.

Lemma answer_is_paired_up_to_the_shorter_witness :
  answer 5 [Some "YWJj"]
    (rpc_requests [[{| pubkey := key_A; callback := [(0%Z, 1)] |}];
                   [{| pubkey := key_B; callback := [(0%Z, 2)] |}]] watching_A_B)
  = Some [jsonrpcclient.Ok
            {| jsonrpcclient.context_slot := 5;
               jsonrpcclient.value := [Some {| jsonrpcclient.data_0 := "YWJj" |}] |}] ∧
  trace (load_chunk b64decode_padded (answer 5 [Some "YWJj"])
           [[{| pubkey := key_A; callback := [(0%Z, 1)] |}];
            [{| pubkey := key_B; callback := [(0%Z, 2)] |}]] watching_A_B).1
  = [Called "A" 0 1 (Some "abc") 5].
Proof.
  split; [reflexivity|].
  rewrite (answer_is_paired_up_to_the_shorter b64decode_padded
             (answer 5 [Some "YWJj"]) _ watching_A_B _ eq_refl).
  reflexivity.
Defined.

(** ** The websocket subscription *)

Section websocket_facts.
Import websocket_sub.

Lemma count_effect_app p evs1 evs2 :
  count_effect p (evs1 ++ evs2) = count_effect p evs1 + count_effect p evs2.
Proof. unfold count_effect. by rewrite List.filter_app, length_app. Qed.

Lemma constructed_app evs1 evs2 :
  constructed (evs1 ++ evs2) = constructed evs1 + constructed evs2.
Proof. unfold constructed. by rewrite List.filter_app, length_app. Qed.

Lemma count_call_app c calls1 calls2 :
  count_call c (calls1 ++ calls2) = count_call c calls1 + count_call c calls2.
Proof. unfold count_call. by rewrite List.filter_app, length_app. Qed.

Lemma run_snoc calls c ws : run (calls ++ [c]) ws = run_call (run calls ws) c.
Proof. unfold run. apply foldl_snoc. Qed.

(** [subscribe] in one piece: the subscriber held afterwards is the one held
    before or else a new one made from the settings, and the calls made are
    the construction if there was none, [subscribe()] on the subscriber,
    and [sync()] on the user map unless the initial load is skipped. *)
Lemma subscribe_effects ws :
  subscribe ws
  = set_subscriber
      (Some (match subscriber ws with
             | Some s => s
             | None =>
                 {| ident := constructed (effects ws);
                    program := user_map_program ws;
                    options := {| filters := expected_filters ws;
                                  options_commitment := commitment ws;
                                  encoding := "base64" |};
                    subscriber_on_update := on_update ws |}
             end))
      (perform
         (match subscriber ws with
          | Some s => [SubscriberSubscribe (ident s)]
          | None =>
              [Constructed
                 {| ident := constructed (effects ws);
                    program := user_map_program ws;
                    options := {| filters := expected_filters ws;
                                  options_commitment := commitment ws;
                                  encoding := "base64" |};
                    subscriber_on_update := on_update ws |};
               SubscriberSubscribe (constructed (effects ws))]
          end ++ (if skip_initial_load ws then [] else [UserMapSync])) ws).
Proof.
  destruct ws as [p c u skip r idle [s|] evs]; destruct skip, idle;
    unfold subscribe, set_subscriber, perform, expected_filters; simpl;
    rewrite <- ?app_assoc, ?app_nil_r; reflexivity.
Qed.

(** What every series of calls keeps of a subscription. *)
Lemma run_invariant calls p c u skip r idle :
  user_map_program (run calls (init p c u skip r idle)) = p ∧
  commitment (run calls (init p c u skip r idle)) = c ∧
  on_update (run calls (init p c u skip r idle)) = u ∧
  skip_initial_load (run calls (init p c u skip r idle)) = skip ∧
  resub_timeout_ms (run calls (init p c u skip r idle)) = r ∧
  include_idle (run calls (init p c u skip r idle)) = idle ∧
  (∀ s, subscriber (run calls (init p c u skip r idle)) = Some s →
     options s = {| filters := expected_filters (init p c u skip r idle);
                    options_commitment := c; encoding := "base64" |} ∧
     program s = p ∧ subscriber_on_update s = u ∧
     S (ident s) = constructed (effects (run calls (init p c u skip r idle)))) ∧
  constructed (effects (run calls (init p c u skip r idle)))
  = count_effect is_unsubscribe (effects (run calls (init p c u skip r idle)))
    + match subscriber (run calls (init p c u skip r idle)) with
      | Some _ => 1
      | None => 0
      end ∧
  count_effect is_subscribe (effects (run calls (init p c u skip r idle)))
  = count_call call_subscribe calls ∧
  count_effect is_sync (effects (run calls (init p c u skip r idle)))
  = (if skip then 0 else count_call call_subscribe calls).
Proof.
  induction calls as [|call calls IH] using rev_ind.
  { split_and!; try done. by destruct skip. }
  rewrite run_snoc, !count_call_app.
  destruct IH as (Hp & Hc & Hu & Hskip & Hr & Hidle & Hheld & Hmade & Hsub & Hsync).
  set (ws := run calls (init p c u skip r idle)) in *.
  destruct call; cbn [run_call].
  - rewrite subscribe_effects. cbn [set_subscriber perform user_map_program
      commitment on_update skip_initial_load resub_timeout_ms include_idle
      subscriber effects].
    rewrite !constructed_app, !count_effect_app, Hsub, Hsync, Hskip.
    assert (Hfilters : expected_filters ws = expected_filters (init p c u skip r idle))
      by (unfold expected_filters; by rewrite Hidle).
    destruct (subscriber ws) as [s|] eqn:Hs.
    + destruct (Hheld s eq_refl) as (Hopt & Hprog & Hon & Hident).
      split_and!; try done.
      * intros s' [= <-]. split_and!; try done. destruct skip; unfold constructed, count_effect, count_call in *; simpl in *; lia.
      * destruct skip; unfold constructed, count_effect, count_call in *; simpl in *; lia.
      * destruct skip; unfold constructed, count_effect, count_call in *; simpl in *; lia.
      * destruct skip; unfold constructed, count_effect, count_call in *; simpl in *; lia.
    + split_and!; try done.
      * intros s' [= <-]. simpl. rewrite Hfilters, Hc, Hp, Hu.
        split_and!; try done. destruct skip; unfold constructed, count_effect, count_call in *; simpl in *; lia.
      * destruct skip; unfold constructed, count_effect, count_call in *; simpl in *; lia.
      * destruct skip; unfold constructed, count_effect, count_call in *; simpl in *; lia.
      * destruct skip; unfold constructed, count_effect, count_call in *; simpl in *; lia.
  - unfold unsubscribe. destruct (subscriber ws) as [s|] eqn:Hs.
    + cbn [set_subscriber perform user_map_program commitment on_update
        skip_initial_load resub_timeout_ms include_idle subscriber effects].
      rewrite !constructed_app, !count_effect_app, Hsub, Hsync.
      split_and!; try done;
        destruct skip; unfold constructed, count_effect, count_call in *;
        simpl in *; lia.
    + rewrite Hs. split_and!; try done;
        destruct skip; unfold constructed, count_effect, count_call in *;
        simpl in *; lia.
Qed.

(** The subscribers are made and unsubscribed in turn: the n-th one made is
    named [n], and the n-th call of [unsubscribe()] goes to it. *)
Lemma run_idents calls p c u skip r idle :
  made (effects (run calls (init p c u skip r idle)))
  = seq 0 (constructed (effects (run calls (init p c u skip r idle)))) ∧
  unsubscribed (effects (run calls (init p c u skip r idle)))
  = seq 0 (count_effect is_unsubscribe
             (effects (run calls (init p c u skip r idle)))) ∧
  Forall (fun n => n < constructed (effects (run calls (init p c u skip r idle))))
    (subscribed (effects (run calls (init p c u skip r idle)))).
Proof.
  induction calls as [|call calls IH] using rev_ind; [done|].
  rewrite run_snoc.
  destruct (run_invariant calls p c u skip r idle)
    as (_ & _ & _ & _ & _ & _ & Hheld & Hcount & _).
  destruct IH as (Hmade & Hunsub & Hsub).
  set (ws := run calls (init p c u skip r idle)) in *.
  unfold made, unsubscribed, subscribed in *.
  destruct call; cbn [run_call].
  - rewrite subscribe_effects. cbn [set_subscriber perform effects].
    rewrite !omap_app, !constructed_app, !count_effect_app, Hmade, Hunsub.
    destruct (subscriber ws) as [s|] eqn:Hs.
    + destruct (Hheld s eq_refl) as (_ & _ & _ & Hident).
      destruct (skip_initial_load ws); unfold constructed, count_effect; simpl;
        rewrite ?app_nil_r, ?Nat.add_0_r; split_and!; try done;
        (apply Forall_app; split; [done|]); repeat constructor;
        unfold constructed in *; lia.
    + destruct (skip_initial_load ws); unfold constructed, count_effect; simpl;
        rewrite ?app_nil_r, ?Nat.add_0_r, ?Nat.add_1_r;
        (split_and!; [by rewrite seq_S | done |]);
        (apply Forall_app; split;
         [eapply Forall_impl; [exact Hsub|]; unfold constructed; simpl; lia
         |repeat constructor; lia]).
  - unfold unsubscribe. destruct (subscriber ws) as [s|] eqn:Hs; [|done].
    destruct (Hheld s eq_refl) as (_ & _ & _ & Hident).
    cbn [set_subscriber perform effects].
    rewrite !omap_app, !constructed_app, !count_effect_app, Hmade, Hunsub.
    unfold constructed, count_effect in *. simpl.
    rewrite ?app_nil_r, ?Nat.add_0_r, ?Nat.add_1_r. split_and!; [done| |done].
    rewrite seq_S. simpl. do 2 f_equal. lia.
Qed.

(** X13: after any series of [subscribe] and [unsubscribe] calls every
    setting of the subscription is the one it was made with, and the
    subscriber it holds, if any, was made from them: for the program of the
    user map, with its commitment, base64 encoding, its update callback and
    the user filter, followed by the non-idle filter exactly when idle users
    are not included. *)
Theorem subscriber_is_made_from_the_settings calls p c u skip r idle :
  user_map_program (run calls (init p c u skip r idle)) = p ∧
  commitment (run calls (init p c u skip r idle)) = c ∧
  on_update (run calls (init p c u skip r idle)) = u ∧
  skip_initial_load (run calls (init p c u skip r idle)) = skip ∧
  resub_timeout_ms (run calls (init p c u skip r idle)) = r ∧
  include_idle (run calls (init p c u skip r idle)) = idle ∧
  ∀ s, subscriber (run calls (init p c u skip r idle)) = Some s →
    program s = p ∧
    subscriber_on_update s = u ∧
    options_commitment (options s) = c ∧
    encoding (options s) = "base64" ∧
    filters (options s)
    = (if idle then [user_filter] else [user_filter; non_idle_user_filter]).
Proof.
  destruct (run_invariant calls p c u skip r idle)
    as (Hp & Hc & Hu & Hskip & Hr & Hidle & Hheld & _).
  split_and!; try done.
  intros s Hs. destruct (Hheld s Hs) as (-> & ? & ? & _). by split_and!.
Qed.

Lemma subscriber_is_made_from_the_settings_witness :
  subscriber (run [call_subscribe; call_unsubscribe; call_subscribe]
                (init 7 "confirmed" 3 false (Some 30000%Z) false))
  = Some {| ident := 1; program := 7;
            options := {| filters := [user_filter; non_idle_user_filter];
                          options_commitment := "confirmed";
                          encoding := "base64" |};
            subscriber_on_update := 3 |} ∧
  resub_timeout_ms (run [call_subscribe; call_unsubscribe; call_subscribe]
                      (init 7 "confirmed" 3 false (Some 30000%Z) false))
  = Some 30000%Z ∧
  filters (options {| ident := 1; program := 7;
            options := {| filters := [user_filter; non_idle_user_filter];
                          options_commitment := "confirmed";
                          encoding := "base64" |};
            subscriber_on_update := 3 |})
  = [user_filter; non_idle_user_filter].
Proof.
  split; [reflexivity|].
  split.
  - exact (proj1 (proj2 (proj2 (proj2 (proj2
      (subscriber_is_made_from_the_settings
         [call_subscribe; call_unsubscribe; call_subscribe]
         7 "confirmed" 3 false (Some 30000%Z) false)))))).
  - exact (proj2 (proj2 (proj2 (proj2
      (proj2 (proj2 (proj2 (proj2 (proj2 (proj2
         (subscriber_is_made_from_the_settings
            [call_subscribe; call_unsubscribe; call_subscribe]
            7 "confirmed" 3 false (Some 30000%Z) false)))))) _ eq_refl))))).
Defined.

(** X14: a subscription never holds two subscribers. The subscribers are
    made one after the other, the n-th being named [n]; [unsubscribe()] is
    called on them in the same order, each at most once, and it has been
    called on every subscriber made but the one held, which is the last one
    made; [subscribe()] is only ever called on a subscriber that was made.
    [subscribe] makes a new subscriber only when none is held, and
    [unsubscribe] without a subscriber does nothing. *)
Theorem one_subscriber_at_a_time calls p c u skip r idle :
  made (effects (run calls (init p c u skip r idle)))
  = seq 0 (constructed (effects (run calls (init p c u skip r idle)))) ∧
  unsubscribed (effects (run calls (init p c u skip r idle)))
  = seq 0 (constructed (effects (run calls (init p c u skip r idle)))
           - (match subscriber (run calls (init p c u skip r idle)) with
              | Some _ => 1
              | None => 0
              end)) ∧
  Forall (fun n => n < constructed (effects (run calls (init p c u skip r idle))))
    (subscribed (effects (run calls (init p c u skip r idle)))) ∧
  constructed (effects (run calls (init p c u skip r idle)))
  = count_effect is_unsubscribe (effects (run calls (init p c u skip r idle)))
    + match subscriber (run calls (init p c u skip r idle)) with
      | Some _ => 1
      | None => 0
      end ∧
  (∀ s, subscriber (run calls (init p c u skip r idle)) = Some s →
     S (ident s) = constructed (effects (run calls (init p c u skip r idle))) ∧
     ¬ (ident s ∈ unsubscribed (effects (run calls (init p c u skip r idle)))) ∧
     constructed (effects (subscribe (run calls (init p c u skip r idle))))
     = constructed (effects (run calls (init p c u skip r idle))) ∧
     unsubscribed (effects (unsubscribe (run calls (init p c u skip r idle))))
     = unsubscribed (effects (run calls (init p c u skip r idle))) ++ [ident s]) ∧
  (subscriber (run calls (init p c u skip r idle)) = None →
   unsubscribe (run calls (init p c u skip r idle))
   = run calls (init p c u skip r idle) ∧
   constructed (effects (subscribe (run calls (init p c u skip r idle))))
   = S (constructed (effects (run calls (init p c u skip r idle))))).
Proof.
  destruct (run_invariant calls p c u skip r idle)
    as (_ & _ & _ & _ & _ & _ & Hheld & Hmade & _).
  destruct (run_idents calls p c u skip r idle) as (Hm & Hu & Hs).
  split_and!; try done.
  - rewrite Hu. f_equal. lia.
  - intros s Hsub. destruct (Hheld s Hsub) as (_ & _ & _ & Hident).
    rewrite Hsub in Hmade. split_and!.
    + done.
    + rewrite Hu. intros Hin%elem_of_seq. lia.
    + rewrite subscribe_effects, Hsub. simpl. rewrite constructed_app.
      destruct (skip_initial_load _); unfold constructed in *; simpl in *; lia.
    + unfold unsubscribe. rewrite Hsub. simpl. unfold unsubscribed.
      by rewrite omap_app.
  - intros Hnone. split; [unfold unsubscribe; by rewrite Hnone|].
    rewrite subscribe_effects, Hnone. simpl. rewrite constructed_app.
    destruct (skip_initial_load _); unfold constructed in *; simpl in *; lia.
Qed.

(** X15: every [subscribe] call calls [subscribe()] on the subscriber, also
    when it was subscribed before, and syncs the user map, unless the
    subscription skips the initial load, in which case no series of calls
    ever syncs it. *)
Theorem every_subscribe_subscribes_and_syncs calls p c u skip r idle :
  count_effect is_subscribe (effects (run calls (init p c u skip r idle)))
  = count_call call_subscribe calls ∧
  count_effect is_sync (effects (run calls (init p c u skip r idle)))
  = (if skip then 0 else count_call call_subscribe calls).
Proof.
  destruct (run_invariant calls p c u skip r idle)
    as (_ & _ & _ & _ & _ & _ & _ & _ & Hsub & Hsync).
  done.
Qed.
End websocket_facts.

(** ** Where a run stops *)

Lemma load_results_app b64decode pairs1 pairs2 st :
  load_results b64decode (pairs1 ++ pairs2) st
  = match load_results b64decode pairs1 st with
    | (st1, Returned) => load_results b64decode pairs2 st1
    | (st1, Raised e) => (st1, Raised e)
    end.
Proof.
  revert st. induction pairs1 as [|[r accounts] pairs1 IH]; intros st; [done|].
  rewrite <- app_comm_cons. cbn [load_results]. destruct r as [result|message].
  - destruct (load_accounts _ _ _ _ st) as [st1 [|e]]; [apply IH | done].
  - apply IH.
Qed.

Lemma load_accounts_rest_agrees b64decode s accounts value st :
  load_accounts b64decode s accounts value st
  = ((load_accounts_rest b64decode s accounts value st).1.1,
     (load_accounts_rest b64decode s accounts value st).2).
Proof.
  revert value st. induction accounts as [|a rest IH]; intros value st; [done|].
  cbn [load_accounts load_accounts_rest].
  destruct (load_account b64decode s a value st) as [[st1 value1] [|e]];
    [apply IH | done].
Qed.

Lemma load_accounts_app b64decode s accounts1 accounts2 value st :
  load_accounts b64decode s (accounts1 ++ accounts2) value st
  = match load_accounts_rest b64decode s accounts1 value st with
    | (st1, value1, Returned) => load_accounts b64decode s accounts2 value1 st1
    | (st1, _, Raised e) => (st1, Raised e)
    end.
Proof.
  revert value st. induction accounts1 as [|a rest IH]; intros value st; [done|].
  rewrite <- app_comm_cons. cbn [load_accounts load_accounts_rest].
  destruct (load_account b64decode s a value st) as [[st1 value1] [|e]];
    [apply IH | done].
Qed.

(** X16: a payload that does not decode is not passed over the way a
    rejected sub-batch is: wherever in the group the account that reads it
    stands, [binascii.Error] leaves the loops at once. What the sub-batches
    before it and the accounts before it in its sub-batch changed stays
    changed; the account itself, the accounts after it and the sub-batches
    after it are not reconciled, and [load_chunk] raises. *)
Theorem undecodable_payload_aborts_group b64decode before_pairs result before a
    rest more st st1 value1 :
  (load_results b64decode before_pairs st).2 = Returned →
  load_accounts_rest b64decode (jsonrpcclient.context_slot result) before
    (jsonrpcclient.value result) (load_results b64decode before_pairs st).1
  = (st1, value1, Returned) →
  is_stale (jsonrpcclient.context_slot result)
    (buffer_and_slot_map st1 !! address a) = false →
  new_buffer_of b64decode (pop_0 value1).1 = None →
  load_accounts b64decode (jsonrpcclient.context_slot result) before
    (jsonrpcclient.value result) (load_results b64decode before_pairs st).1
  = (st1, Returned) ∧
  load_results b64decode
    (before_pairs ++ (jsonrpcclient.Ok result, before ++ a :: rest) :: more) st
  = (st1, Raised binascii_Error) ∧
  ∀ post chunk parsed_resp,
    post (rpc_requests chunk st) = Some parsed_resp →
    zip parsed_resp chunk
    = before_pairs ++ (jsonrpcclient.Ok result, before ++ a :: rest) :: more →
    load_chunk b64decode post chunk st = (st1, Raised binascii_Error).
Proof.
  intros Hout Hbefore Hfresh Hd.
  assert (Hgroup : load_results b64decode
    (before_pairs ++ (jsonrpcclient.Ok result, before ++ a :: rest) :: more) st
    = (st1, Raised binascii_Error)).
  { rewrite load_results_app.
    destruct (load_results b64decode before_pairs st) as [st0 o0].
    simpl in *. subst o0. cbn [load_results].
    rewrite load_accounts_app, Hbefore. cbn [load_accounts].
    by rewrite (load_account_undecodable _ _ _ _ _ Hfresh Hd). }
  split_and!.
  - by rewrite load_accounts_rest_agrees, Hbefore.
  - done.
  - intros post chunk parsed_resp Hpost Hzip. unfold load_chunk.
    destruct (decide (length chunk = 0)) as [Hlen|_].
    + destruct chunk; [|done]. destruct parsed_resp, before_pairs; done.
    + by rewrite Hpost, Hzip.
Qed.

Lemma undecodable_payload_aborts_group_witness :
  (load_results b64decode_padded [] watching_A_B).2 = Returned ∧
  load_accounts_rest b64decode_padded 5
    [{| pubkey := key_A; callback := [(0%Z, 1)] |}]
    [Some {| jsonrpcclient.data_0 := "YQ==" |};
     Some {| jsonrpcclient.data_0 := "a" |}] watching_A_B
  = (after_A, [Some {| jsonrpcclient.data_0 := "a" |}], Returned) ∧
  new_buffer_of b64decode_padded
    (pop_0 [Some {| jsonrpcclient.data_0 := "a" |}]).1 = None ∧
  load_results b64decode_padded
    [(jsonrpcclient.Ok
        {| jsonrpcclient.context_slot := 5;
           jsonrpcclient.value :=
             [Some {| jsonrpcclient.data_0 := "YQ==" |};
              Some {| jsonrpcclient.data_0 := "a" |}] |},
      [{| pubkey := key_A; callback := [(0%Z, 1)] |};
       {| pubkey := key_B; callback := [(0%Z, 2)] |}])] watching_A_B
  = (after_A, Raised binascii_Error) ∧
  trace after_A = [Called "A" 0 1 (Some "a") 5].
Proof.
  split; [reflexivity|]. split; [reflexivity|]. split; [reflexivity|].
  split; [|reflexivity].
  exact (proj1 (proj2 (undecodable_payload_aborts_group b64decode_padded []
    {| jsonrpcclient.context_slot := 5;
       jsonrpcclient.value :=
         [Some {| jsonrpcclient.data_0 := "YQ==" |};
          Some {| jsonrpcclient.data_0 := "a" |}] |}
    [{| pubkey := key_A; callback := [(0%Z, 1)] |}]
    {| pubkey := key_B; callback := [(0%Z, 2)] |} [] [] watching_A_B
    after_A [Some {| jsonrpcclient.data_0 := "a" |}]
    eq_refl eq_refl eq_refl eq_refl))).
Defined.

(** ** A request that fails *)







